(** * BLAKE2Xs: the extendable-output function of package blake2xs

    A shallow embedding of [blake2xs.go] and the properties of its
    write-then-read protocol.

    Conventions of the embedding.
    - Go's [uint8], [uint16], [uint32] and [uint64] are [Z] with the
      wrap-around of every operation written out; Go's [int] is [Z]
      (the counters [px], [left] and [nn] stay far below 2^31).
    - A [[]byte] is a [list byte]; a slice that may be [nil] and is tested
      for it ([xof.h0]) is an [option (list byte)].
    - The [*blake2s.Tree] of the caller's [Config] is a location in a store
      of trees, because [NewXOF] reaches the caller's object through it. The
      tree of [xof.oc] is allocated by [NewXOF] and never escapes the
      engine, so it is kept in line in the engine's state.
    - The engine itself ([*xof]) is threaded explicitly through [Write] and
      [Read]; a run-time panic (nil dereference, index out of range) is the
      [None] of the option monad.
    - Package [github.com/dchest/blake2s] is not part of this repository:
      it is the interface [blake2s.Primitive], instantiated further below
      by BLAKE2s itself (RFC 7693). *)

From Stdlib Require Import ZArith List String Lia.
From Stdlib.Strings Require Import Byte.
From stdpp Require Import base option list gmap.

Local Open Scope Z_scope.

(** ** Go's error values *)

(** [io.EOF] and the values made by [errors.New]. *)
Inductive error : Type :=
| io_EOF
| errors_New (msg : string).

(** What [append(nil, d...)] is when compared with [nil]. *)
Definition append_nil (d : list byte) : option (list byte) :=
  match d with
  | [] => None
  | _ :: _ => Some d
  end.

(** The bytes of a slice that may be [nil]. *)
Definition bytes_of (s : option (list byte)) : list byte :=
  match s with
  | Some d => d
  | None => []
  end.

(** ** Package blake2s, as far as blake2xs uses it *)

Module blake2s.

(** [blake2s.Size], the digest size of the primitive in bytes. *)
Definition Size : Z := 32.

(** [blake2s.Tree]. *)
Module Tree.
Record t : Type := mk {
  Fanout : Z;          (* uint8 *)
  MaxDepth : Z;        (* uint8 *)
  LeafSize : Z;        (* uint32 *)
  NodeOffset : Z;      (* uint64 *)
  NodeDepth : Z;       (* uint8 *)
  InnerHashSize : Z;   (* uint8 *)
  IsLastNode : bool
}.

Definition set_NodeOffset (v : Z) (tr : t) : t :=
  mk (Fanout tr) (MaxDepth tr) (LeafSize tr) v (NodeDepth tr)
     (InnerHashSize tr) (IsLastNode tr).
End Tree.

(** [blake2s.Config] as [blake2s.New] reads it: the [Tree] pointer is
    followed, [None] standing for [nil]. *)
Module Config.
Record t : Type := mk {
  Size : Z;            (* uint8 *)
  Key : list byte;
  Salt : list byte;
  Person : list byte;
  Tree : option Tree.t
}.

Definition set_Size (v : Z) (c : t) : t :=
  mk v (Key c) (Salt c) (Person c) (Tree c).

Definition set_Tree (tr : option Tree.t) (c : t) : t :=
  mk (Size c) (Key c) (Salt c) (Person c) tr.
End Config.

(** The primitive: [blake2s.New] and the methods of the [hash.Hash] it
    returns. [New] only reads the configuration it is given (its digest
    size is never 0 here), and [Sum] leaves the hash as it is. *)
Class Primitive : Type := {
  hash : Type;
  New : Config.t -> error + hash;
  Write : hash -> list byte -> hash * (Z * option error);
  Sum : hash -> list byte -> list byte;
  HashSize : hash -> Z
}.

(** What blake2xs relies on, from the contract of [hash.Hash]. *)
Class Lawful (P : Primitive) : Prop := {
  (** [Sum] appends the digest to its argument. *)
  Sum_append : forall h b, Sum h b = b ++ Sum h [];
  (** The digest is [Size()] bytes long. *)
  Sum_length : forall h,
    0 <= HashSize h <= Size -> Z.of_nat (length (Sum h [])) = HashSize h;
  (** Writing does not change [Size()]. *)
  Write_HashSize : forall h p, HashSize (fst (Write h p)) = HashSize h;
  (** A hash made for a digest of 1..32 bytes has that [Size()]. *)
  New_HashSize : forall c h,
    New c = inr h -> 1 <= Config.Size c <= Size -> HashSize h = Config.Size c
}.

End blake2s.

(** ** Package blake2xs *)

(** [UnknownSize = 1<<16 - 1]. *)
Definition UnknownSize : Z := Z.shiftl 1 16 - 1.

(** Locations of the [blake2s.Tree] objects the caller holds. *)
Definition loc : Type := positive.

(** The store of those objects. *)
Abbreviation store := (gmap positive blake2s.Tree.t).

(** [Config]. *)
Module Config.
Record t : Type := mk {
  Size : Z;              (* uint16 *)
  Key : list byte;
  Salt : list byte;
  Person : list byte;
  Tree : option loc      (* *blake2s.Tree *)
}.

(** The values a [uint16] can take. *)
Definition wf (c : t) : Prop := 0 <= Size c < 2 ^ 16.
End Config.

Definition uint64 (z : Z) : Z := z mod 2 ^ 64.
Definition uint8 (z : Z) : Z := z mod 2 ^ 8.

(** [xof]: the engine behind the [io.ReadWriter] that [NewXOF] returns. *)
Module xof.
Record t {H : Type} : Type := mk {
  rh : H;                       (* root hash instance *)
  oc : blake2s.Config.t;        (* output config *)
  h0 : option (list byte);      (* root hash digest, nil if not finalized yet *)
  x : list byte;                (* buffer for output, [blake2s.Size]byte *)
  px : Z;                       (* position in output buffer *)
  left : Z                      (* number of output bytes left to generate *)
}.
Arguments t : clear implicits.

Section setters.
Context {H : Type}.
Definition set_rh (v : H) (e : t H) : t H :=
  mk H v (oc e) (h0 e) (x e) (px e) (left e).
Definition set_oc (v : blake2s.Config.t) (e : t H) : t H :=
  mk H (rh e) v (h0 e) (x e) (px e) (left e).
Definition set_h0 (v : option (list byte)) (e : t H) : t H :=
  mk H (rh e) (oc e) v (x e) (px e) (left e).
Definition set_x (v : list byte) (e : t H) : t H :=
  mk H (rh e) (oc e) (h0 e) v (px e) (left e).
Definition set_px (v : Z) (e : t H) : t H :=
  mk H (rh e) (oc e) (h0 e) (x e) v (left e).
Definition set_left (v : Z) (e : t H) : t H :=
  mk H (rh e) (oc e) (h0 e) (x e) (px e) v.
End setters.
End xof.

Section XOF.
Context {P : blake2s.Primitive}.

Abbreviation engine := (xof.t blake2s.hash).

(** The value [NewXOF] adds to the node offsets: [uint64(outSize) << 32]. *)
Definition encoded_length (outSize : Z) : Z := uint64 (Z.shiftl (uint64 outSize) 32).

(** [outSize] of [NewXOF]. *)
Definition outSize_of (c : Config.t) : Z :=
  if Config.Size c =? 0 then UnknownSize else Config.Size c.

(** The tree [rc.Tree] points to before the addition: the caller's, or
    the default one allocated when the caller gave none. *)
Definition default_Tree : blake2s.Tree.t :=
  blake2s.Tree.mk 1 1 0 0 0 0 false.

(** The output config [oc] of [NewXOF]. *)
Definition output_config (c : Config.t) : blake2s.Config.t :=
  blake2s.Config.mk blake2s.Size [] (Config.Salt c) (Config.Person c)
    (Some (blake2s.Tree.mk 0 0 blake2s.Size (encoded_length (outSize_of c)) 0
             blake2s.Size false)).

(** The first part of [NewXOF], up to and including
    [rc.Tree.NodeOffset += uint64(outSize) << 32]: the store afterwards
    and the root config as [blake2s.New] will read it. [rc.Tree] is the
    caller's pointer when there is one, so the addition is made in the
    caller's object. [None]: the pointer dangles. *)
Definition root_config (σ : store) (c : Config.t)
  : option (store * blake2s.Config.t) :=
  let outSize := outSize_of c in
  match Config.Tree c with
  | None =>
      let tr := default_Tree in
      let tr' := blake2s.Tree.set_NodeOffset
                   (uint64 (blake2s.Tree.NodeOffset tr + encoded_length outSize)) tr in
      Some (σ, blake2s.Config.mk blake2s.Size (Config.Key c) (Config.Salt c)
                 (Config.Person c) (Some tr'))
  | Some l =>
      tr ← σ !! l;
      let tr' := blake2s.Tree.set_NodeOffset
                   (uint64 (blake2s.Tree.NodeOffset tr + encoded_length outSize)) tr in
      Some (<[l := tr']> σ,
            blake2s.Config.mk blake2s.Size (Config.Key c) (Config.Salt c)
              (Config.Person c) (Some tr'))
  end.

(** [NewXOF]. The result is the store after the call and what the call
    returns. *)
Definition NewXOF (σ : store) (c : Config.t)
  : option (store * (error + engine)) :=
  '(σ', rc) ← root_config σ c;
  let oc := output_config c in
  match blake2s.New rc with
  | inl err => Some (σ', inl err)
  | inr rh =>
      Some (σ', inr (xof.mk _ rh oc None (replicate 32 Byte.x00)
                       blake2s.Size (outSize_of c)))
  end.

(** [Write]. *)
Definition Write (e : engine) (p : list byte) : engine * (Z * option error) :=
  match xof.h0 e with
  | Some _ => (e, (0, Some (errors_New "blake2xs: cannot write after reading")))
  | None =>
      let '(h, r) := blake2s.Write (xof.rh e) p in
      (xof.set_rh h e, r)
  end.

(** [h.Sum(x.x[:0])]: the digest is appended to the empty slice over the
    buffer, that is, written over its first bytes while it fits the
    capacity; a longer one would go to a new array and be lost. *)
Definition sum_into (d : list byte) (buf : list byte) : list byte :=
  if (length d <=? length buf)%nat then d ++ drop (length d) buf else buf.

(** The body of [if x.px >= blake2s.Size] in [Read]: the engine
    afterwards and the error it returns with, if any. *)
Definition refill (e : engine) : option (engine * option error) :=
  let e1 :=
    if xof.left e <? blake2s.Size
    then xof.set_oc (blake2s.Config.set_Size (uint8 (xof.left e)) (xof.oc e)) e
    else e in
  match blake2s.New (xof.oc e1) with
  | inl err => Some (e1, Some err)
  | inr h =>
      let h' := fst (blake2s.Write h (bytes_of (xof.h0 e1))) in
      let e2 := xof.set_x (sum_into (blake2s.Sum h' []) (xof.x e1)) e1 in
      tr ← blake2s.Config.Tree (xof.oc e2);
      let tr' := blake2s.Tree.set_NodeOffset
                   (uint64 (blake2s.Tree.NodeOffset tr + 1)) tr in
      let e3 := xof.set_oc (blake2s.Config.set_Tree (Some tr') (xof.oc e2)) e2 in
      Some (xof.set_px 0 e3, None)
  end.

(** [x.x[x.px]]. *)
Definition buffer_at (e : engine) : option byte :=
  if xof.px e <? 0 then None else xof.x e !! Z.to_nat (xof.px e).

(** The loop [for i := range p] of [Read], with [k] iterations to go
    from index [i]: the engine, [p], [nn] and [err] it returns. *)
Fixpoint Read_loop (k : nat) (i : nat) (e : engine) (p : list byte) (nn : Z)
  : option (engine * list byte * Z * option error) :=
  match k with
  | O => Some (e, p, nn, None)
  | S k' =>
      if (xof.left e =? 0) && negb (i =? length p)%nat
      then Some (e, p, nn, Some io_EOF)
      else
        '(e1, err) ← (if blake2s.Size <=? xof.px e then refill e else Some (e, None));
        match err with
        | Some err => Some (e1, p, nn, Some err)
        | None =>
            b ← buffer_at e1;
            let p' := <[i := b]> p in
            let e2 := xof.set_px (xof.px e1 + 1) e1 in
            let e3 := xof.set_left (xof.left e2 - 1) e2 in
            Read_loop k' (S i) e3 p' (nn + 1)
        end
  end.

(** The root digest is taken at the first [Read]. *)
Definition finalize (e : engine) : engine :=
  match xof.h0 e with
  | None => xof.set_h0 (append_nil (blake2s.Sum (xof.rh e) [])) e
  | Some _ => e
  end.

(** [Read]. *)
Definition Read (e : engine) (p : list byte)
  : option (engine * list byte * Z * option error) :=
  Read_loop (length p) 0 (finalize e) p 0.

(** *** Sessions *)

(** The bytes a [Read] call hands back: [p[:nn]]. *)
Definition returned (r : engine * list byte * Z * option error) : list byte :=
  let '(_, p, nn, _) := r in take (Z.to_nat nn) p.

(** Successive [Read] calls, one per buffer of [ps]: the engine
    afterwards and, for every call, the bytes it handed back and its
    [err]. *)
Fixpoint Reads (e : engine) (ps : list (list byte))
  : option (engine * list (list byte * option error)) :=
  match ps with
  | [] => Some (e, [])
  | p :: ps' =>
      r ← Read e p;
      '(e', rs) ← Reads (fst (fst (fst r))) ps';
      Some (e', (returned r, snd r) :: rs)
  end.

(** The bytes of all the calls, in order. *)
Definition bytes_read (rs : list (list byte * option error)) : list byte :=
  concat (map fst rs).

(** The tree parameters a [Config] stands for in a store: those of its
    tree, or the default ones. *)
Definition tree_parameters (σ : store) (c : Config.t) : option blake2s.Tree.t :=
  match Config.Tree c with
  | None => Some default_Tree
  | Some l => σ !! l
  end.

(** The calls a holder of the [io.ReadWriter] can make. *)
Inductive call : Type :=
| CallWrite (p : list byte)
| CallRead (p : list byte).

Definition do_call (e : engine) (c : call) : option engine :=
  match c with
  | CallWrite p => Some (fst (Write e p))
  | CallRead p => r ← Read e p; Some (fst (fst (fst r)))
  end.

Fixpoint do_calls (e : engine) (cs : list call) : option engine :=
  match cs with
  | [] => Some e
  | c :: cs' => e' ← do_call e c; do_calls e' cs'
  end.

(** [NewXOF(c)], then [Write(msg)], then [Read] into a buffer [p]: the
    store after the construction and the bytes read. [None] also when
    the construction fails. *)
Definition output (σ : store) (c : Config.t) (msg p : list byte)
  : option (store * list byte) :=
  '(σ', r) ← NewXOF σ c;
  match r with
  | inl _ => None
  | inr e => r ← Read (fst (Write e msg)) p; Some (σ', returned r)
  end.

(** *** The loop of [Read] as a producer of bytes *)

(** [px++; left--] at the end of an iteration. *)
Definition advance (e : engine) : engine :=
  xof.set_left (xof.left (xof.set_px (xof.px e + 1) e) - 1)
    (xof.set_px (xof.px e + 1) e).

(** [k] iterations of the loop seen from the engine alone: the bytes
    stored into [p], in order, instead of [p] and [nn]. *)
Fixpoint emit (k : nat) (e : engine) : option (engine * list byte * option error) :=
  match k with
  | O => Some (e, [], None)
  | S k' =>
      if xof.left e =? 0 then Some (e, [], Some io_EOF)
      else
        '(e1, err) ← (if blake2s.Size <=? xof.px e then refill e else Some (e, None));
        match err with
        | Some err => Some (e1, [], Some err)
        | None =>
            b ← buffer_at e1;
            '(e', out, err') ← emit k' (advance e1);
            Some (e', b :: out, err')
        end
  end.

(** *** State invariant *)

(** What holds of an engine between calls. *)
Record xof_inv (e : engine) : Prop := {
  inv_px : 0 <= xof.px e <= blake2s.Size;
  inv_left : 0 <= xof.left e <= UnknownSize;
  inv_x : length (xof.x e) = 32%nat;
  inv_rh : blake2s.HashSize (xof.rh e) = blake2s.Size;
  inv_h0 : forall d, xof.h0 e = Some d -> d = blake2s.Sum (xof.rh e) [];
  inv_oc_Size : 1 <= blake2s.Config.Size (xof.oc e) <= blake2s.Size;
  inv_oc_Tree : exists tr, blake2s.Config.Tree (xof.oc e) = Some tr /\
                  0 <= blake2s.Tree.NodeOffset tr /\
                  blake2s.Tree.NodeOffset tr + xof.left e < 2 ^ 48
}.

(** The output config of [e] with another digest size and node offset. *)
Definition leaf_config (e : engine) (sz off : Z) : blake2s.Config.t :=
  blake2s.Config.set_Size sz
    (blake2s.Config.set_Tree
       (blake2s.Tree.set_NodeOffset off <$> blake2s.Config.Tree (xof.oc e))
       (xof.oc e)).

(** The primitive makes a hash for every output block of [e]. *)
Definition accepts_leaves (e : engine) : Prop :=
  forall sz off, 1 <= sz <= blake2s.Size -> 0 <= off < 2 ^ 48 ->
    exists h, blake2s.New (leaf_config e sz off) = inr h.

(** *** The output as a sequence of blocks *)

(** The node offset of the output config. *)
Definition oc_offset (e : engine) : Z :=
  match blake2s.Config.Tree (xof.oc e) with
  | Some tr => blake2s.Tree.NodeOffset tr
  | None => 0
  end.

(** The block for the root digest [d] under the output config of [e] with
    digest size [sz] and node offset [off]: the digest of a hash made
    from that config into which [d] was written. *)
Definition leaf_block (e : engine) (d : list byte) (sz off : Z) : list byte :=
  match blake2s.New (leaf_config e sz off) with
  | inr h => blake2s.Sum (fst (blake2s.Write h d)) []
  | inl _ => []
  end.

(** The blocks for [left] bytes, the first at node offset [off]: blocks
    of 32 bytes at successive node offsets, the last one of the size that
    is left. [n] bounds the number of blocks. *)
Fixpoint blocks (n : nat) (e : engine) (d : list byte) (left off : Z) : list byte :=
  match n with
  | O => []
  | S n' =>
      if left <=? 0 then []
      else leaf_block e d (Z.min 32 left) off
             ++ blocks n' e d (left - Z.min 32 left) (off + 1)
  end.

(** The bytes of the buffer still to be handed out. *)
Definition pending (e : engine) : list byte :=
  take (Z.to_nat (Z.min (32 - xof.px e) (xof.left e)))
       (drop (Z.to_nat (xof.px e)) (xof.x e)).

(** The output config has the full digest size as long as a full block
    is left. *)
Definition full_size (e : engine) : Prop :=
  32 <= xof.left e -> blake2s.Config.Size (xof.oc e) = 32.

End XOF.

(** ** BLAKE2s

    The hash function behind package blake2s, as RFC 7693 and the BLAKE2
    specification (parameter block, tree mode) define it. It instantiates
    [blake2s.Primitive] wherever a statement is evaluated on concrete
    input. The hash object is the configuration together with the bytes
    written so far. *)

Module BLAKE2s.

Definition w32 (z : Z) : Z := Z.land z 0xFFFFFFFF.

Definition rotr (n w : Z) : Z :=
  Z.lor (Z.shiftr w n) (w32 (Z.shiftl w (32 - n))).

Definition IV : list Z :=
  [0x6A09E667; 0xBB67AE85; 0x3C6EF372; 0xA54FF53A;
   0x510E527F; 0x9B05688C; 0x1F83D9AB; 0x5BE0CD19].

Definition SIGMA : list (list nat) :=
  [[0; 1; 2; 3; 4; 5; 6; 7; 8; 9; 10; 11; 12; 13; 14; 15];
   [14; 10; 4; 8; 9; 15; 13; 6; 1; 12; 0; 2; 11; 7; 5; 3];
   [11; 8; 12; 0; 5; 2; 15; 13; 10; 14; 3; 6; 7; 1; 9; 4];
   [7; 9; 3; 1; 13; 12; 11; 14; 2; 6; 5; 10; 4; 0; 15; 8];
   [9; 0; 5; 7; 2; 4; 10; 15; 14; 1; 11; 12; 6; 8; 3; 13];
   [2; 12; 6; 10; 0; 11; 8; 3; 4; 13; 7; 5; 15; 14; 1; 9];
   [12; 5; 1; 15; 14; 13; 4; 10; 0; 7; 6; 3; 9; 2; 8; 11];
   [13; 11; 7; 14; 12; 1; 3; 9; 5; 0; 15; 4; 8; 6; 2; 10];
   [6; 15; 14; 9; 11; 3; 0; 8; 12; 2; 13; 7; 1; 4; 10; 5];
   [10; 2; 8; 4; 7; 6; 1; 5; 15; 11; 9; 14; 3; 12; 13; 0]]%nat.

Definition word (v : list Z) (i : nat) : Z := nth i v 0.

(** The mixing function G. *)
Definition G (a b c d : nat) (mx my : Z) (v : list Z) : list Z :=
  let va := w32 (word v a + word v b + mx) in
  let vd := rotr 16 (Z.lxor (word v d) va) in
  let vc := w32 (word v c + vd) in
  let vb := rotr 12 (Z.lxor (word v b) vc) in
  let va := w32 (va + vb + my) in
  let vd := rotr 8 (Z.lxor vd va) in
  let vc := w32 (vc + vd) in
  let vb := rotr 7 (Z.lxor vb vc) in
  <[a := va]> (<[b := vb]> (<[c := vc]> (<[d := vd]> v))).

Definition round (m : list Z) (s : list nat) (v : list Z) : list Z :=
  let mw (j : nat) := word m (nth j s 0%nat) in
  let v := G 0 4 8 12 (mw 0%nat) (mw 1%nat) v in
  let v := G 1 5 9 13 (mw 2%nat) (mw 3%nat) v in
  let v := G 2 6 10 14 (mw 4%nat) (mw 5%nat) v in
  let v := G 3 7 11 15 (mw 6%nat) (mw 7%nat) v in
  let v := G 0 5 10 15 (mw 8%nat) (mw 9%nat) v in
  let v := G 1 6 11 12 (mw 10%nat) (mw 11%nat) v in
  let v := G 2 7 8 13 (mw 12%nat) (mw 13%nat) v in
  G 3 4 9 14 (mw 14%nat) (mw 15%nat) v.

(** The compression function F: chaining value [h], message words [m],
    byte counter [t], finalization flags [f0] and [f1]. *)
Definition F (h m : list Z) (t : Z) (f0 f1 : bool) : list Z :=
  let v := h ++ IV in
  let v := <[12%nat := Z.lxor (word v 12) (w32 t)]> v in
  let v := <[13%nat := Z.lxor (word v 13) (w32 (Z.shiftr t 32))]> v in
  let v := if f0 then <[14%nat := Z.lxor (word v 14) 0xFFFFFFFF]> v else v in
  let v := if f1 then <[15%nat := Z.lxor (word v 15) 0xFFFFFFFF]> v else v in
  let v := fold_left (fun v s => round m s v) SIGMA v in
  map (fun i => Z.lxor (Z.lxor (word h i) (word v i)) (word v (i + 8)))
      (seq 0 8).

Definition byte_Z (b : byte) : Z := Z.of_N (Byte.to_N b).

Definition Z_byte (z : Z) : byte :=
  match Byte.of_N (Z.to_N (Z.land z 0xFF)) with
  | Some b => b
  | None => Byte.x00
  end.

(** Little-endian words of a byte string (missing bytes count as 0). *)
Definition le_word (bs : list byte) (i : nat) : Z :=
  let b (j : nat) := byte_Z (nth (4 * i + j) bs Byte.x00) in
  Z.lor (b 0%nat)
    (Z.lor (Z.shiftl (b 1%nat) 8)
       (Z.lor (Z.shiftl (b 2%nat) 16) (Z.shiftl (b 3%nat) 24))).

Definition le_words (n : nat) (bs : list byte) : list Z :=
  map (le_word bs) (seq 0 n).

Definition le_bytes (w : Z) : list byte :=
  [Z_byte w; Z_byte (Z.shiftr w 8); Z_byte (Z.shiftr w 16); Z_byte (Z.shiftr w 24)].

(** [bs], cut or filled with zeros to [n] bytes. *)
Definition pad (n : nat) (bs : list byte) : list byte :=
  take n bs ++ replicate (n - length bs) Byte.x00.

(** The 32-byte parameter block. Without tree parameters the mode is
    sequential: fanout 1, depth 1. *)
Definition param_block (c : blake2s.Config.t) : list byte :=
  let tr := match blake2s.Config.Tree c with
            | Some tr => tr
            | None => blake2s.Tree.mk 1 1 0 0 0 0 false
            end in
  let off := blake2s.Tree.NodeOffset tr in
  [Z_byte (blake2s.Config.Size c);
   Z_byte (Z.of_nat (length (blake2s.Config.Key c)));
   Z_byte (blake2s.Tree.Fanout tr);
   Z_byte (blake2s.Tree.MaxDepth tr)]
  ++ le_bytes (blake2s.Tree.LeafSize tr)
  ++ le_bytes off
  ++ [Z_byte (Z.shiftr off 32); Z_byte (Z.shiftr off 40);
      Z_byte (blake2s.Tree.NodeDepth tr);
      Z_byte (blake2s.Tree.InnerHashSize tr)]
  ++ pad 8 (blake2s.Config.Salt c)
  ++ pad 8 (blake2s.Config.Person c).

Definition last_node (c : blake2s.Config.t) : bool :=
  match blake2s.Config.Tree c with
  | Some tr => blake2s.Tree.IsLastNode tr
  | None => false
  end.

(** The blocks of [input] but the last are compressed with the counter
    advanced by 64; the last one, filled with zeros, with the
    finalization flags. *)
Fixpoint absorb (fuel : nat) (f1 : bool) (h : list Z) (t : Z) (input : list byte)
  : list Z :=
  match fuel with
  | O => h
  | S fuel' =>
      if (length input <=? 64)%nat
      then F h (le_words 16 (pad 64 input)) (t + Z.of_nat (length input)) true f1
      else absorb fuel' f1 (F h (le_words 16 (take 64 input)) (t + 64) false false)
             (t + 64) (drop 64 input)
  end.

(** The digest of [data] under configuration [c]. *)
Definition digest (c : blake2s.Config.t) (data : list byte) : list byte :=
  let h := zip_with Z.lxor IV (le_words 8 (param_block c)) in
  let input := match blake2s.Config.Key c with
               | [] => data
               | key => pad 64 key ++ data
               end in
  let h := absorb (S (length input)) (last_node c) h 0 input in
  take (Z.to_nat (blake2s.Config.Size c)) (concat (map le_bytes h)).

(** The parameters BLAKE2s admits. *)
Definition verifyConfig (c : blake2s.Config.t) : option error :=
  if 32 <? blake2s.Config.Size c then Some (errors_New "digest size is too large")
  else if (32 <? length (blake2s.Config.Key c))%nat then Some (errors_New "key is too large")
  else if (8 <? length (blake2s.Config.Salt c))%nat then Some (errors_New "salt is too large")
  else if (8 <? length (blake2s.Config.Person c))%nat
  then Some (errors_New "personalization is too large")
  else match blake2s.Config.Tree c with
       | Some tr =>
           if 32 <? blake2s.Tree.InnerHashSize tr
           then Some (errors_New "incorrect tree inner hash size")
           else if 2 ^ 48 - 1 <? blake2s.Tree.NodeOffset tr
           then Some (errors_New "tree node offset is too large")
           else None
       | None => None
       end.

(** The hash object. *)
Record state : Type := mk { config : blake2s.Config.t; written : list byte }.

Definition New (c : blake2s.Config.t) : error + state :=
  match verifyConfig c with
  | Some err => inl err
  | None => inr (mk c [])
  end.

Definition Write (h : state) (p : list byte) : state * (Z * option error) :=
  (mk (config h) (written h ++ p), (Z.of_nat (length p), None)).

Definition Sum (h : state) (b : list byte) : list byte :=
  b ++ digest (config h) (written h).

Definition HashSize (h : state) : Z := blake2s.Config.Size (config h).

#[global] Instance primitive : blake2s.Primitive := {
  blake2s.hash := state;
  blake2s.New := New;
  blake2s.Write := Write;
  blake2s.Sum := Sum;
  blake2s.HashSize := HashSize
}.

Definition hex_digit (n : Z) : string :=
  String.substring (Z.to_nat n) 1 "0123456789abcdef".

(** Bytes in hexadecimal, for the test vectors. *)
Definition hex (bs : list byte) : string :=
  fold_right (fun b s => (hex_digit (Z.shiftr (byte_Z b) 4) ++ hex_digit (Z.land (byte_Z b) 15) ++ s)%string)
    EmptyString bs.

Definition hex_value (a : Ascii.ascii) : Z :=
  let n := Z.of_nat (Ascii.nat_of_ascii a) in
  if (48 <=? n) && (n <=? 57) then n - 48
  else if (97 <=? n) && (n <=? 102) then n - 87
  else 0.

(** The bytes written in hexadecimal. *)
Fixpoint unhex (s : string) : list byte :=
  match s with
  | String a (String b s') => Z_byte (16 * hex_value a + hex_value b) :: unhex s'
  | _ => []
  end.

Definition bytes (s : string) : list byte := list_byte_of_string s.

End BLAKE2s.

(** ** Sample inputs *)

Module Sample.

Definition abc : list byte := BLAKE2s.bytes "abc".

(** [make([]byte, n)]. *)
Definition buffer (n : nat) : list byte := replicate n Byte.x00.

(** [&Config{Size: 64}] and [&Config{}]. *)
Definition cfg64 : Config.t := Config.mk 64 [] [] [] None.
Definition cfg0 : Config.t := Config.mk 0 [] [] [] None.

(** The engine [NewXOF(&Config{Size: 64})] returns over BLAKE2s. *)
Definition eng64 : xof.t (@blake2s.hash BLAKE2s.primitive) :=
  xof.mk BLAKE2s.state
    (BLAKE2s.mk
       (blake2s.Config.mk 32 [] [] []
          (Some (blake2s.Tree.mk 1 1 0 (Z.shiftl 64 32) 0 0 false))) [])
    (blake2s.Config.mk 32 [] [] []
       (Some (blake2s.Tree.mk 0 0 32 (Z.shiftl 64 32) 0 32 false)))
    None (buffer 32) 32 64.

(** The same for [&Config{}]. *)
Definition eng0 : xof.t (@blake2s.hash BLAKE2s.primitive) :=
  xof.mk BLAKE2s.state
    (BLAKE2s.mk
       (blake2s.Config.mk 32 [] [] []
          (Some (blake2s.Tree.mk 1 1 0 (Z.shiftl 65535 32) 0 0 false))) [])
    (blake2s.Config.mk 32 [] [] []
       (Some (blake2s.Tree.mk 0 0 32 (Z.shiftl 65535 32) 0 32 false)))
    None (buffer 32) 32 65535.

(** [t := &blake2s.Tree{Fanout: 1, MaxDepth: 1}] in the caller's hands,
    and [&Config{Size: 64, Tree: t}]. *)
Definition tree : blake2s.Tree.t := blake2s.Tree.mk 1 1 0 0 0 0 false.
Definition store_tree : store := {[ 1%positive := tree ]}.
Definition cfg64_tree : Config.t := Config.mk 64 [] [] [] (Some 1%positive).

End Sample.

(** * Properties *)

Section Theory.
Context {P : blake2s.Primitive}.
Abbreviation engine := (xof.t blake2s.hash).

Lemma advance_eq (e : engine) :
  xof.set_left (xof.left (xof.set_px (xof.px e + 1) e) - 1)
    (xof.set_px (xof.px e + 1) e) = advance e.
Proof. reflexivity. Qed.

Lemma Read_loop_emit (k : nat) : forall (i : nat) (e : engine) (p : list byte) (nn : Z),
  (i + k <= length p)%nat ->
  Read_loop k i e p nn =
    '(e', out, err) ← emit k e;
    Some (e', take i p ++ out ++ drop (i + length out) p,
          nn + Z.of_nat (length out), err).
Proof.
  induction k as [|k IH]; intros i e p nn Hlen.
  - cbn. rewrite Nat.add_0_r, take_drop, Z.add_0_r. reflexivity.
  - cbn [Read_loop emit].
    assert (Hi : (i =? length p)%nat = false) by (apply Nat.eqb_neq; lia).
    rewrite Hi, andb_true_r.
    destruct (xof.left e =? 0).
    + cbn. rewrite Nat.add_0_r, take_drop, Z.add_0_r. reflexivity.
    + destruct (if blake2s.Size <=? xof.px e then refill e else Some (e, None))
        as [[e1 [err|]]|]; cbn; [| |reflexivity].
      * rewrite Nat.add_0_r, take_drop, Z.add_0_r. reflexivity.
      * destruct (buffer_at e1) as [b|]; [|reflexivity].
        cbn [mbind option_bind].
        rewrite IH by (rewrite length_insert; lia).
        change (xof.set_left _ _) with (advance e1).
        destruct (emit k (advance e1)) as [[[e' out] err']|]; [|reflexivity].
        cbn [mbind option_bind].
        assert (Hl : (i < length p)%nat) by lia.
        rewrite (take_S_r _ _ b) by (apply list_lookup_insert_eq; lia).
        rewrite take_insert_ge by lia.
        rewrite drop_insert_lt by lia.
        rewrite <- app_assoc. cbn [length app].
        replace (S i + length out)%nat with (i + S (length out))%nat by lia.
        do 3 f_equal. lia.
Qed.

Lemma emit_length (k : nat) : forall (e e' : engine) out err,
  emit k e = Some (e', out, err) -> (length out <= k)%nat.
Proof.
  induction k as [|k IH]; intros e e' out err H; cbn [emit] in H.
  - injection H as <- <- <-. cbn. lia.
  - destruct (xof.left e =? 0); [injection H as <- <- <-; cbn; lia|].
    destruct (if blake2s.Size <=? xof.px e then refill e else Some (e, None))
      as [[e1 [err1|]]|]; cbn [mbind option_bind] in H; [| |discriminate].
    + injection H as <- <- <-. cbn. lia.
    + destruct (buffer_at e1) as [b|]; cbn [mbind option_bind] in H; [|discriminate].
      destruct (emit k (advance e1)) as [[[e2 out2] err2]|] eqn:E;
        cbn [mbind option_bind] in H; [|discriminate].
      injection H as <- <- <-. apply IH in E. cbn. lia.
Qed.

(** [Read] in terms of [emit]. *)
Lemma Read_emit (e : engine) (p : list byte) :
  Read e p =
    '(e', out, err) ← emit (length p) (finalize e);
    Some (e', out ++ drop (length out) p, Z.of_nat (length out), err).
Proof.
  unfold Read. rewrite Read_loop_emit by lia.
  destruct (emit _ _) as [[[e' out] err]|]; reflexivity.
Qed.

Lemma Read_returned (e : engine) (p : list byte) :
  returned <$> Read e p = (fun r => snd (fst r)) <$> emit (length p) (finalize e).
Proof.
  rewrite Read_emit.
  destruct (emit _ _) as [[[e' out] err]|] eqn:E; [|reflexivity].
  cbn. rewrite Nat2Z.id, take_app_length. reflexivity.
Qed.

(** One iteration of [emit], by cases. *)
Ltac emit_cases e H e1 err1 b :=
  cbn [emit] in H;
  destruct (xof.left e =? 0) eqn:?;
  [| destruct (if blake2s.Size <=? xof.px e then refill e else Some (e, None))
       as [[e1 [err1|]]|] eqn:?; cbn [mbind option_bind] in H;
     [| destruct (buffer_at e1) as [b|] eqn:?; cbn [mbind option_bind] in H;
        [|discriminate] | discriminate]].

Lemma refill_frame (e e1 : engine) err :
  refill e = Some (e1, err) ->
  xof.rh e1 = xof.rh e /\ xof.h0 e1 = xof.h0 e /\ xof.left e1 = xof.left e /\
  (forall sz off, leaf_config e1 sz off = leaf_config e sz off) /\
  match err with
  | None => xof.px e1 = 0
  | Some _ => xof.px e1 = xof.px e /\ refill e1 = Some (e1, err)
  end.
Proof.
  unfold refill. intros H.
  set (e0 := if xof.left e <? blake2s.Size then _ else e) in H.
  assert (H0 : xof.rh e0 = xof.rh e /\ xof.h0 e0 = xof.h0 e /\
               xof.left e0 = xof.left e /\ xof.px e0 = xof.px e /\
               (forall sz off, leaf_config e0 sz off = leaf_config e sz off) /\
               (if xof.left e0 <? blake2s.Size
                then xof.set_oc (blake2s.Config.set_Size (uint8 (xof.left e0)) (xof.oc e0)) e0
                else e0) = e0).
  { subst e0. destruct (xof.left e <? blake2s.Size) eqn:E; destruct e; cbn in *;
      rewrite ?E; repeat split; reflexivity. }
  destruct H0 as (Hrh & Hh0 & Hleft & Hpx & Hleaf & Hidem).
  destruct (blake2s.New (xof.oc e0)) as [err0|h] eqn:EN.
  - injection H as <- <-. repeat split; try assumption.
    rewrite Hidem, EN. reflexivity.
  - destruct (blake2s.Config.Tree (xof.oc (xof.set_x _ e0))) as [tr|] eqn:ET;
      cbn [mbind option_bind] in H; [|discriminate].
    injection H as <- <-. cbn. repeat split; try assumption.
    intros sz off. rewrite <- Hleaf. unfold leaf_config. cbn in *. rewrite ET. reflexivity.
Qed.

Lemma step_frame (e e1 : engine) err :
  (if blake2s.Size <=? xof.px e then refill e else Some (e, None)) = Some (e1, err) ->
  xof.rh e1 = xof.rh e /\ xof.h0 e1 = xof.h0 e /\ xof.left e1 = xof.left e /\
  (forall sz off, leaf_config e1 sz off = leaf_config e sz off).
Proof.
  destruct (blake2s.Size <=? xof.px e).
  - intros H. apply refill_frame in H. tauto.
  - intros [= <- <-]. tauto.
Qed.

(** [emit] leaves the root hash and the root digest alone, and takes
    one from [left] for every byte. *)
Lemma emit_frame (k : nat) : forall (e e' : engine) out err,
  emit k e = Some (e', out, err) ->
  xof.rh e' = xof.rh e /\ xof.h0 e' = xof.h0 e /\
  xof.left e' = xof.left e - Z.of_nat (length out) /\
  (forall sz off, leaf_config e' sz off = leaf_config e sz off).
Proof.
  induction k as [|k IH]; intros e e' out err H.
  - injection H as <- <- <-. cbn. repeat split; lia.
  - emit_cases e H e1 err1 b.
    + injection H as <- <- <-. cbn. repeat split; lia.
    + injection H as <- <- <-. cbn [length]. apply step_frame in Heqo.
      destruct Heqo as (? & ? & ? & ?). repeat split; try assumption; lia.
    + destruct (emit k (advance e1)) as [[[e2 out2] err2]|] eqn:E;
        cbn [mbind option_bind] in H; [|discriminate].
      injection H as <- <- <-. apply IH in E. apply step_frame in Heqo.
      destruct E as (? & ? & ? & HL), Heqo as (? & ? & ? & HL').
      change (xof.rh (advance e1)) with (xof.rh e1) in *.
      change (xof.h0 (advance e1)) with (xof.h0 e1) in *.
      change (xof.left (advance e1)) with (xof.left e1 - 1) in *.
      cbn [length]. repeat split; [congruence|congruence|lia|].
      intros sz off. rewrite HL, <- HL'. reflexivity.
Qed.

(** After a call that ended with an error, further iterations give
    no byte and leave the engine as it is. *)
Lemma emit_stuck (k : nat) : forall (e e' : engine) out err,
  emit k e = Some (e', out, Some err) ->
  forall j, exists err', emit j e' = Some (e', [], err').
Proof.
  induction k as [|k IH]; intros e e' out err H; [discriminate|].
  emit_cases e H e1 err1 b.
  - injection H as <- <- <-. intros [|j]; cbn [emit]; [eauto|].
    rewrite Heqb. eauto.
  - injection H as <- <- <-. intros [|j]; cbn [emit]; [eauto|].
    destruct (blake2s.Size <=? xof.px e) eqn:Epx; [|discriminate].
    apply refill_frame in Heqo. destruct Heqo as (_ & _ & Hl & _ & Hp & Hr).
    rewrite Hl, Heqb, Hp, Epx, Hr. cbn. eauto.
  - destruct (emit k (advance e1)) as [[[e2 out2] err2]|] eqn:E;
      cbn [mbind option_bind] in H; [|discriminate].
    injection H as <- <- ->. eapply IH, E.
Qed.

(** [a + b] iterations are [a] iterations and, unless they ended with
    an error, [b] more. *)
Lemma emit_app (a b : nat) : forall e : engine,
  emit (a + b) e =
    '(e1, o1, err1) ← emit a e;
    match err1 with
    | Some _ => Some (e1, o1, err1)
    | None => '(e2, o2, err2) ← emit b e1; Some (e2, o1 ++ o2, err2)
    end.
Proof.
  induction a as [|a IH]; intros e.
  - cbn. destruct (emit b e) as [[[e2 o2] err2]|]; reflexivity.
  - cbn [Nat.add emit]. destruct (xof.left e =? 0); [reflexivity|].
    destruct (if blake2s.Size <=? xof.px e then refill e else Some (e, None))
      as [[e1 [err1|]]|]; cbn [mbind option_bind]; [reflexivity| |reflexivity].
    destruct (buffer_at e1) as [c|]; cbn [mbind option_bind]; [|reflexivity].
    rewrite IH. destruct (emit a (advance e1)) as [[[e2 o2] [err2|]]|];
      cbn [mbind option_bind]; [reflexivity| |reflexivity].
    destruct (emit b e2) as [[[e3 o3] err3]|]; reflexivity.
Qed.

(** *** Finalization *)

Lemma finalize_idem (e : engine) : finalize (finalize e) = finalize e.
Proof.
  unfold finalize. destruct (xof.h0 e) eqn:E; [rewrite E; reflexivity|].
  cbn. destruct (append_nil _); reflexivity.
Qed.

Lemma finalize_fixed (e e' : engine) :
  finalize e = e -> xof.rh e' = xof.rh e -> xof.h0 e' = xof.h0 e -> finalize e' = e'.
Proof.
  unfold finalize. intros H Hrh Hh0. rewrite Hh0, Hrh.
  destruct (xof.h0 e) eqn:E; [reflexivity|].
  rewrite <- H in E. cbn in E. rewrite E, <- Hh0. destruct e'; reflexivity.
Qed.

Lemma emit_finalized (k : nat) (e e' : engine) out err :
  finalize e = e -> emit k e = Some (e', out, err) -> finalize e' = e'.
Proof.
  intros H E. apply emit_frame in E. destruct E as (? & ? & _).
  eapply finalize_fixed; eassumption.
Qed.

(** *** Several calls against one *)

Lemma Reads_emit (ps : list (list byte)) : forall e : engine,
  finalize e = e ->
  (fun r => (fst r, bytes_read (snd r))) <$> Reads e ps =
  (fun r => (fst (fst r), snd (fst r))) <$> emit (length (concat ps)) e.
Proof.
  induction ps as [|p ps IH]; intros e He; [reflexivity|].
  cbn [Reads concat]. rewrite length_app, emit_app, Read_emit, He.
  destruct (emit (length p) e) as [[[e1 o1] err1]|] eqn:E1; [|reflexivity].
  cbn [mbind option_bind fst snd returned].
  rewrite Nat2Z.id, take_app_length.
  specialize (IH e1 (emit_finalized _ _ _ _ _ He E1)).
  destruct err1 as [err1|].
  - destruct (emit_stuck _ _ _ _ _ E1 (length (concat ps))) as [err' Hs].
    rewrite Hs in IH. destruct (Reads e1 ps) as [[e2 rs]|]; [|discriminate].
    cbn in IH. injection IH as -> Hb. cbn. unfold bytes_read in *. cbn.
    rewrite Hb, app_nil_r. reflexivity.
  - destruct (emit _ e1) as [[[e2 o2] err2]|], (Reads e1 ps) as [[e3 rs]|];
      try discriminate; [|reflexivity].
    cbn in IH. injection IH as -> Hb. cbn. unfold bytes_read in *. cbn.
    rewrite Hb. reflexivity.
Qed.

(** The bytes of successive calls are the bytes of one call for their
    total length. *)
Lemma Reads_Read (e : engine) (ps : list (list byte)) (p : list byte) :
  length p = length (concat ps) ->
  (fun r => bytes_read (snd r)) <$> Reads e ps = returned <$> Read e p.
Proof.
  intros Hp. rewrite Read_returned, Hp.
  destruct ps as [|p1 ps].
  - reflexivity.
  - pose proof (Reads_emit (p1 :: ps) (finalize e) (finalize_idem e)) as HR.
    cbn [Reads] in *. unfold Read in *. rewrite finalize_idem in HR.
    destruct (emit (length (concat (p1 :: ps))) _) as [[[e' out] err]|],
      (Read_loop _ _ _ _ _ ≫= _) as [[e2 rs]|]; try discriminate; [|reflexivity].
    cbn in *. congruence.
Qed.

(** *** The invariant *)

Context {L : blake2s.Lawful P}.

Lemma Sum_nonempty (h : blake2s.hash) :
  blake2s.HashSize h = blake2s.Size ->
  append_nil (blake2s.Sum h []) = Some (blake2s.Sum h []) /\
  length (blake2s.Sum h []) = 32%nat.
Proof.
  intros H. pose proof (blake2s.Sum_length h) as HL. rewrite H in HL.
  unfold blake2s.Size in HL. specialize (HL ltac:(lia)).
  destruct (blake2s.Sum h []); cbn in *; [lia|]. split; [reflexivity|lia].
Qed.

Lemma finalize_inv (e : engine) :
  xof_inv e -> xof_inv (finalize e) /\ xof.h0 (finalize e) = Some (blake2s.Sum (xof.rh e) []).
Proof.
  intros I. unfold finalize. destruct (xof.h0 e) as [d|] eqn:E.
  - split; [assumption|]. rewrite E. f_equal. apply (inv_h0 _ I), E.
  - destruct (Sum_nonempty (xof.rh e) (inv_rh _ I)) as [-> _].
    split; [|reflexivity].
    destruct I. constructor; cbn; try assumption. intros d [= <-]. reflexivity.
Qed.

Lemma uint_small (b z : Z) : 0 <= z < b -> z mod b = z.
Proof. apply Z.mod_small. Qed.

(** One iteration from an engine with bytes left: either the
    primitive refuses the output config, or a byte is stored. *)
Lemma step_inv (e : engine) :
  xof_inv e -> xof.left e <> 0 ->
  exists e1 err,
    (if blake2s.Size <=? xof.px e then refill e else Some (e, None)) = Some (e1, err) /\
    match err with
    | Some _ => xof_inv e1
    | None => xof_inv (advance e1) /\ exists b, buffer_at e1 = Some b
    end.
Proof.
  intros I Hleft. pose proof I as [Ipx Il Ix Irh Ih0 Ios (tr & Itr & Ioff & Ioff')].
  unfold blake2s.Size in *. change UnknownSize with 65535 in *.
  destruct (32 <=? xof.px e) eqn:Epx.
  - unfold refill.
    set (e0 := if xof.left e <? blake2s.Size then _ else e).
    assert (I0 : xof_inv e0 /\ blake2s.Config.Tree (xof.oc e0) = Some tr /\
                 xof.x e0 = xof.x e /\ xof.left e0 = xof.left e /\ xof.px e0 = xof.px e).
    { subst e0. unfold blake2s.Size. destruct (xof.left e <? 32) eqn:E.
      - apply Z.ltb_lt in E. split_and!; try reflexivity.
        constructor; cbn; try assumption.
        + unfold uint8. rewrite uint_small by lia. unfold blake2s.Size. lia.
        + exists tr. auto.
        + exact Itr.
      - split_and!; try reflexivity; assumption. }
    destruct I0 as (I0 & Itr0 & Ix0 & Il0 & Ipx0).
    destruct (blake2s.New (xof.oc e0)) as [err|h] eqn:EN.
    + exists e0, (Some err). split; [reflexivity|assumption].
    + cbn. rewrite Itr0. cbn.
      eexists _, None. split; [reflexivity|].
      pose proof (blake2s.New_HashSize _ _ EN (inv_oc_Size _ I0)) as HS.
      pose proof (inv_oc_Size _ I0) as Hsz. unfold blake2s.Size in Hsz.
      pose proof (blake2s.Sum_length (blake2s.Write h (bytes_of (xof.h0 e0))).1) as HLen.
      rewrite blake2s.Write_HashSize, HS in HLen.
      unfold blake2s.Size in HLen. specialize (HLen ltac:(lia)).
      set (d := blake2s.Sum (blake2s.Write h _).1 []) in *.
      assert (Hx : length (sum_into d (xof.x e0)) = 32%nat).
      { unfold sum_into. rewrite Ix0, Ix.
        destruct (length d <=? 32)%nat eqn:E; [|exact Ix].
        apply Nat.leb_le in E. rewrite length_app, length_drop. lia. }
      split.
      * destruct I0. constructor; cbn; rewrite ?Il0; try assumption; try lia.
        exists (blake2s.Tree.set_NodeOffset (uint64 (blake2s.Tree.NodeOffset tr + 1)) tr).
        split; [reflexivity|]. cbn. unfold uint64. rewrite uint_small by lia. lia.
      * unfold buffer_at. cbn. apply lookup_lt_is_Some. rewrite Hx. lia.
  - apply Z.leb_gt in Epx. exists e, None. split; [reflexivity|]. split.
    + destruct I. constructor; cbn; try assumption;
        unfold blake2s.Size; change UnknownSize with 65535; try lia.
      exists tr. split_and!; try assumption. lia.
    + unfold buffer_at. destruct (xof.px e <? 0) eqn:E; [apply Z.ltb_lt in E; lia|].
      apply lookup_lt_is_Some. rewrite Ix. lia.
Qed.

(** Under the invariant the loop does not panic, and the invariant
    holds again when it ends. *)
Lemma emit_inv (k : nat) : forall e : engine,
  xof_inv e -> exists e' out err, emit k e = Some (e', out, err) /\ xof_inv e'.
Proof.
  induction k as [|k IH]; intros e I; [cbn; eauto|].
  cbn [emit]. destruct (xof.left e =? 0) eqn:El; [eauto|].
  apply Z.eqb_neq in El.
  destruct (step_inv e I El) as (e1 & [err|] & -> & H); cbn [mbind option_bind].
  - eauto.
  - destruct H as (I1 & b & ->). cbn [mbind option_bind].
    destruct (IH _ I1) as (e' & out & err & -> & I'). cbn. eauto.
Qed.

Lemma leaf_config_self (e : engine) tr :
  blake2s.Config.Tree (xof.oc e) = Some tr ->
  leaf_config e (blake2s.Config.Size (xof.oc e)) (blake2s.Tree.NodeOffset tr) = xof.oc e.
Proof.
  unfold leaf_config. intros H. destruct (xof.oc e) as [? ? ? ? t].
  cbn in H. subst t. destruct tr. reflexivity.
Qed.

Lemma accepts_inv (e : engine) :
  xof_inv e -> accepts_leaves e -> exists h, blake2s.New (xof.oc e) = inr h.
Proof.
  intros I A. destruct (inv_oc_Tree _ I) as (tr & Htr & ? & ?).
  rewrite <- (leaf_config_self e tr Htr). apply A.
  - apply (inv_oc_Size _ I).
  - pose proof (inv_left _ I). lia.
Qed.

Lemma accepts_frame (e e' : engine) :
  (forall sz off, leaf_config e' sz off = leaf_config e sz off) ->
  accepts_leaves e -> accepts_leaves e'.
Proof. intros H A sz off ? ?. rewrite H. apply A; assumption. Qed.

(** While the primitive accepts the output configs, an iteration
    with bytes left stores a byte. *)
Lemma step_ok (e : engine) :
  xof_inv e -> accepts_leaves e -> xof.left e <> 0 ->
  exists e1 b,
    (if blake2s.Size <=? xof.px e then refill e else Some (e, None)) = Some (e1, None) /\
    buffer_at e1 = Some b /\ xof_inv (advance e1) /\ accepts_leaves (advance e1).
Proof.
  intros I A Hl. destruct (step_inv e I Hl) as (e1 & [err|] & Hs & H).
  - exfalso. destruct (blake2s.Size <=? xof.px e); [|discriminate].
    pose proof (refill_frame _ _ _ Hs) as (_ & _ & _ & HL & _ & Hr).
    pose proof (accepts_inv e1 H (accepts_frame _ _ HL A)) as [h Hh].
    unfold refill in Hr.
    assert (Hoc : (if xof.left e1 <? blake2s.Size
                   then xof.set_oc (blake2s.Config.set_Size (uint8 (xof.left e1)) (xof.oc e1)) e1
                   else e1) = e1).
    { unfold refill in Hs. destruct (xof.left e <? blake2s.Size) eqn:E.
      - destruct (blake2s.New _) in Hs; [|destruct (blake2s.Config.Tree _) in Hs; discriminate].
        injection Hs as <- _. cbn. rewrite E. reflexivity.
      - destruct (blake2s.New _) in Hs; [|destruct (blake2s.Config.Tree _) in Hs; discriminate].
        injection Hs as <- _. rewrite E. reflexivity. }
    rewrite Hoc, Hh in Hr. destruct (blake2s.Config.Tree _) in Hr; discriminate.
  - destruct H as (I1 & b & Hb). exists e1, b. split_and!; try assumption.
    apply step_frame in Hs. destruct Hs as (_ & _ & _ & HL).
    eapply accepts_frame; [|exact A]. intros sz off. rewrite <- HL. reflexivity.
Qed.

(** While the primitive accepts the output configs, [k] iterations
    give [min k left] bytes, and end with [io.EOF] exactly when [left]
    is less than [k]. *)
Lemma emit_ok (k : nat) : forall e : engine,
  xof_inv e -> accepts_leaves e ->
  exists e' out,
    emit k e = Some (e', out, if Z.of_nat k <=? xof.left e then None else Some io_EOF) /\
    Z.of_nat (length out) = Z.min (Z.of_nat k) (xof.left e) /\
    xof_inv e' /\ accepts_leaves e'.
Proof.
  induction k as [|k IH]; intros e I A.
  - pose proof (inv_left _ I). exists e, []. cbn [emit].
    destruct (Z.leb_spec (Z.of_nat 0) (xof.left e)); [|lia].
    split_and!; try assumption; try reflexivity. cbn. lia.
  - cbn [emit]. pose proof (inv_left _ I).
    destruct (xof.left e =? 0) eqn:El.
    + apply Z.eqb_eq in El. exists e, [].
      destruct (Z.leb_spec (Z.of_nat (S k)) (xof.left e)); [lia|].
      split_and!; try assumption; try reflexivity. cbn. lia.
    + apply Z.eqb_neq in El.
      destruct (step_ok e I A El) as (e1 & b & Hs & Hb & I1 & A1).
      rewrite Hs. cbn [mbind option_bind]. rewrite Hb. cbn [mbind option_bind].
      destruct (IH _ I1 A1) as (e' & out & -> & Hlen & I' & A').
      cbn [mbind option_bind]. exists e', (b :: out).
      apply step_frame in Hs. destruct Hs as (_ & _ & Hl1 & _).
      change (xof.left (advance e1)) with (xof.left e1 - 1) in *.
      rewrite Hl1 in *. split_and!; try assumption.
      * do 2 f_equal.
        destruct (Z.leb_spec (Z.of_nat k) (xof.left e - 1)),
                 (Z.leb_spec (Z.of_nat (S k)) (xof.left e)); try reflexivity; lia.
      * cbn [length]. lia.
Qed.

(** *** Construction *)

Lemma outSize_of_range (c : Config.t) :
  Config.wf c ->
  1 <= outSize_of c <= 65535 /\
  outSize_of c = if Config.Size c =? 0 then 2 ^ 16 - 1 else Config.Size c.
Proof.
  unfold Config.wf, outSize_of. change UnknownSize with 65535. intros H.
  destruct (Z.eqb_spec (Config.Size c) 0); lia.
Qed.

Lemma encoded_length_small (n : Z) :
  0 <= n < 2 ^ 16 -> encoded_length n = Z.shiftl n 32 /\ Z.shiftl n 32 = n * 2 ^ 32.
Proof.
  intros H. unfold encoded_length, uint64. rewrite (uint_small _ n) by lia.
  rewrite Z.shiftl_mul_pow2 by lia. rewrite uint_small by lia. lia.
Qed.

(** What [NewXOF] returns when the primitive makes the root hash. *)
Lemma NewXOF_engine (σ σ' : store) (c : Config.t) (e : engine) :
  NewXOF σ c = Some (σ', inr e) ->
  exists rc rh, root_config σ c = Some (σ', rc) /\ blake2s.New rc = inr rh /\
    e = xof.mk _ rh (output_config c) None (replicate 32 Byte.x00)
          blake2s.Size (outSize_of c).
Proof.
  unfold NewXOF. destruct (root_config σ c) as [[σ1 rc]|]; [|discriminate].
  cbn [mbind option_bind]. destruct (blake2s.New rc) as [err|rh] eqn:E; [discriminate|].
  intros [= <- <-]. exists rc, rh. auto.
Qed.

Lemma root_config_Size (σ σ' : store) (c : Config.t) rc :
  root_config σ c = Some (σ', rc) -> blake2s.Config.Size rc = blake2s.Size.
Proof.
  unfold root_config. destruct (Config.Tree c) as [l|].
  - destruct (σ !! l); [|discriminate]. intros [= <- <-]. reflexivity.
  - intros [= <- <-]. reflexivity.
Qed.

(** A new engine satisfies the invariant and has no root digest yet. *)
Lemma NewXOF_inv (σ σ' : store) (c : Config.t) (e : engine) :
  Config.wf c -> NewXOF σ c = Some (σ', inr e) ->
  xof_inv e /\ xof.h0 e = None.
Proof.
  intros Hc H. destruct (NewXOF_engine _ _ _ _ H) as (rc & rh & Hrc & Hnew & ->).
  destruct (outSize_of_range c Hc) as [Hout _].
  split; [|reflexivity]. constructor; cbn; unfold blake2s.Size;
    change UnknownSize with 65535; try lia.
  - rewrite (blake2s.New_HashSize _ _ Hnew); rewrite (root_config_Size _ _ _ _ Hrc);
      unfold blake2s.Size; [reflexivity|lia].
  - discriminate.
  - eexists. split; [reflexivity|]. cbn.
    destruct (encoded_length_small (outSize_of c)) as [-> ->]; lia.
Qed.

(** *** Writing *)

Lemma Write_inv (e : engine) (p : list byte) :
  xof_inv e ->
  xof_inv (fst (Write e p)) /\ xof.px (fst (Write e p)) = xof.px e /\
  xof.left (fst (Write e p)) = xof.left e /\ xof.h0 (fst (Write e p)) = xof.h0 e /\
  (forall sz off, leaf_config (fst (Write e p)) sz off = leaf_config e sz off).
Proof.
  intros I. unfold Write. destruct (xof.h0 e) as [d|] eqn:E.
  - cbn. rewrite E. auto.
  - pose proof (blake2s.Write_HashSize (xof.rh e) p) as HW.
    destruct (blake2s.Write (xof.rh e) p) as [h r]. cbn in *.
    split_and!; try reflexivity; [|assumption].
    destruct I. constructor; cbn; try assumption.
    + congruence.
    + rewrite E. discriminate.
Qed.

(** *** Reading *)

(** Under the invariant [Read] returns; it hands back at most
    [len(p)] bytes, takes them from [left], and leaves the root digest
    in place. *)
Lemma Read_inv (e : engine) (p : list byte) :
  xof_inv e ->
  exists e' p' nn err,
    Read e p = Some (e', p', nn, err) /\ xof_inv e' /\
    0 <= nn <= Z.of_nat (length p) /\ xof.left e' = xof.left e - nn /\
    xof.rh e' = xof.rh e /\ xof.h0 e' = Some (blake2s.Sum (xof.rh e) []) /\
    (forall sz off, leaf_config e' sz off = leaf_config e sz off).
Proof.
  intros I. destruct (finalize_inv e I) as [If Hh0].
  destruct (emit_inv (length p) _ If) as (e' & out & err & E & I').
  rewrite Read_emit, E. cbn [mbind option_bind].
  pose proof (emit_length _ _ _ _ _ E). apply emit_frame in E.
  destruct E as (Hrh & Hh & Hl & HL).
  eexists _, _, _, _. split; [reflexivity|]. split_and!; try assumption; try lia.
  - rewrite Hl. unfold finalize. destruct (xof.h0 e); reflexivity.
  - rewrite Hrh. unfold finalize. destruct (xof.h0 e); reflexivity.
  - congruence.
  - intros sz off. rewrite HL. unfold finalize. destruct (xof.h0 e); reflexivity.
Qed.

(** Every call keeps the invariant, never adds to [left], and keeps
    a root digest once there is one; a [Read] leaves one behind. *)
Lemma do_call_inv (e : engine) (c : call) :
  xof_inv e ->
  exists e', do_call e c = Some e' /\ xof_inv e' /\
    0 <= xof.left e' <= xof.left e /\
    (is_Some (xof.h0 e) -> is_Some (xof.h0 e')) /\
    (forall q, c = CallRead q -> is_Some (xof.h0 e')) /\
    (forall sz off, leaf_config e' sz off = leaf_config e sz off).
Proof.
  intros I. destruct c as [p|p]; cbn [do_call].
  - destruct (Write_inv e p I) as (I' & _ & Hl & Hh & HL).
    eexists. split; [reflexivity|]. pose proof (inv_left _ I').
    split_and!; try assumption; try lia.
    + rewrite Hh. auto.
    + discriminate.
  - destruct (Read_inv e p I) as (e' & p' & nn & err & -> & I' & Hnn & Hl & _ & Hh & HL).
    cbn. eexists. split; [reflexivity|]. pose proof (inv_left _ I').
    split_and!; try assumption; try lia; rewrite Hh; eauto.
Qed.

Lemma do_calls_inv (cs : list call) : forall e : engine,
  xof_inv e ->
  exists e', do_calls e cs = Some e' /\ xof_inv e' /\
    0 <= xof.left e' <= xof.left e /\
    (is_Some (xof.h0 e) -> is_Some (xof.h0 e')) /\
    (forall sz off, leaf_config e' sz off = leaf_config e sz off).
Proof.
  induction cs as [|c cs IH]; intros e I; cbn [do_calls].
  - pose proof (inv_left _ I). eexists. split_and!; eauto; lia.
  - destruct (do_call_inv e c I) as (e1 & -> & I1 & Hl1 & Hh1 & _ & HL1).
    cbn [mbind option_bind].
    destruct (IH e1 I1) as (e' & -> & I' & Hl & Hh & HL).
    eexists. split_and!; eauto; try lia. intros. rewrite HL. apply HL1.
Qed.

Lemma do_calls_app (cs1 cs2 : list call) : forall e : engine,
  do_calls e (cs1 ++ cs2) = e1 ← do_calls e cs1; do_calls e1 cs2.
Proof.
  induction cs1 as [|c cs1 IH]; intros e; cbn; [reflexivity|].
  destruct (do_call e c); cbn; [apply IH|reflexivity].
Qed.

(** *** The claims about construction *)

(** C2. [NewXOF] takes the declared size as the output length, or
    2^16 - 1 when the declared size is 0. The root config it hands to
    [blake2s.New] has the digest size 32, the key, salt and person of the
    configuration, and the tree of the configuration (fanout 1 and
    maximal depth 1 when there is none) with that length shifted left by
    32 added to its node offset. When the primitive makes the root hash,
    the engine returned has [px = 32] and [left] equal to the output
    length; otherwise the error of the primitive is returned. *)
Theorem NewXOF_root_config_and_engine (σ : store) (c : Config.t) :
  Config.wf c ->
  (forall l, Config.Tree c = Some l -> is_Some (σ !! l)) ->
  let len := if Config.Size c =? 0 then 2 ^ 16 - 1 else Config.Size c in
  exists σ' base,
    (Config.Tree c = None -> base = blake2s.Tree.mk 1 1 0 0 0 0 false) /\
    (forall l, Config.Tree c = Some l -> σ !! l = Some base) /\
    let rc :=
      blake2s.Config.mk 32 (Config.Key c) (Config.Salt c) (Config.Person c)
        (Some (blake2s.Tree.mk (blake2s.Tree.Fanout base) (blake2s.Tree.MaxDepth base)
                 (blake2s.Tree.LeafSize base)
                 (uint64 (blake2s.Tree.NodeOffset base + Z.shiftl len 32))
                 (blake2s.Tree.NodeDepth base) (blake2s.Tree.InnerHashSize base)
                 (blake2s.Tree.IsLastNode base))) in
    root_config σ c = Some (σ', rc) /\
    match blake2s.New rc with
    | inl err => NewXOF σ c = Some (σ', inl err)
    | inr rh =>
        exists e, NewXOF σ c = Some (σ', inr e) /\ xof.rh e = rh /\
          xof.px e = 32 /\ xof.left e = len
    end.
Proof.
  intros Hc Hσ len.
  destruct (outSize_of_range c Hc) as [Hr Ho].
  destruct (encoded_length_small (outSize_of c) ltac:(lia)) as [He _].
  fold len in Ho. rewrite Ho in He.
  unfold NewXOF, root_config. rewrite Ho, He.
  destruct (Config.Tree c) as [l|] eqn:Et.
  - destruct (Hσ l eq_refl) as [base Hb]. rewrite Hb. cbn [mbind option_bind].
    eexists _, base. split_and!; [discriminate|congruence|reflexivity|].
    unfold blake2s.Tree.set_NodeOffset, blake2s.Size.
    destruct (blake2s.New _) as [err|rh]; [reflexivity|].
    eexists. split_and!; reflexivity.
  - cbn [mbind option_bind].
    eexists _, default_Tree. split_and!; [reflexivity|discriminate|reflexivity|].
    unfold blake2s.Tree.set_NodeOffset, blake2s.Size, default_Tree. cbn.
    destruct (blake2s.New _) as [err|rh]; [reflexivity|].
    eexists. split_and!; reflexivity.
Qed.

(** C3. The output config of a new engine has the salt and person of
    the configuration, no key, fanout 0, maximal depth 0, leaf size 32,
    inner hash size 32, node depth 0, the last-node flag off, and as
    node offset the output length shifted left by 32, which is the
    value added to the node offset of the root config; and
    [UnknownSize] is 2^16 - 1 = 65535. *)
Theorem NewXOF_output_config (σ σ' : store) (c : Config.t) (e : engine) :
  Config.wf c ->
  NewXOF σ c = Some (σ', inr e) ->
  let len := if Config.Size c =? 0 then 2 ^ 16 - 1 else Config.Size c in
  xof.oc e =
    blake2s.Config.mk 32 [] (Config.Salt c) (Config.Person c)
      (Some (blake2s.Tree.mk 0 0 32 (Z.shiftl len 32) 0 32 false)) /\
  (exists rc rtr base,
      root_config σ c = Some (σ', rc) /\ blake2s.Config.Tree rc = Some rtr /\
      (Config.Tree c = None -> base = blake2s.Tree.mk 1 1 0 0 0 0 false) /\
      (forall l, Config.Tree c = Some l -> σ !! l = Some base) /\
      blake2s.Tree.NodeOffset rtr =
        uint64 (blake2s.Tree.NodeOffset base + Z.shiftl len 32)) /\
  UnknownSize = 2 ^ 16 - 1 /\ UnknownSize = 65535.
Proof.
  intros Hc H len.
  destruct (outSize_of_range c Hc) as [Hr Ho].
  destruct (encoded_length_small (outSize_of c) ltac:(lia)) as [He _].
  fold len in Ho. rewrite Ho in He.
  destruct (NewXOF_engine _ _ _ _ H) as (rc & rh & Hrc & _ & ->).
  split_and!; try reflexivity.
  - cbn. unfold output_config. rewrite Ho, He. reflexivity.
  - pose proof Hrc as Hrc'. unfold root_config in Hrc. rewrite Ho, He in Hrc.
    destruct (Config.Tree c) as [l|] eqn:Et.
    + destruct (σ !! l) as [base|] eqn:Hb; [|discriminate].
      injection Hrc as <- <-. eexists _, _, base.
      split_and!; [exact Hrc'|reflexivity|discriminate|congruence|reflexivity].
    + injection Hrc as <- <-. eexists _, _, default_Tree.
      split_and!; [exact Hrc'|reflexivity|reflexivity|discriminate|reflexivity].
Qed.

(** *** The claims about the state *)

(** The bounds on [px] and [left] need nothing else of the engine. *)
Lemma emit_bounds (k : nat) : forall (e e' : engine) out err,
  0 <= xof.px e <= blake2s.Size -> 0 <= xof.left e ->
  emit k e = Some (e', out, err) ->
  0 <= xof.px e' <= blake2s.Size /\ 0 <= xof.left e' <= xof.left e.
Proof.
  induction k as [|k IH]; intros e e' out err Hpx Hl H.
  - injection H as <- <- <-. lia.
  - emit_cases e H e1 err1 b.
    + injection H as <- <- <-. lia.
    + injection H as <- <- <-.
      destruct (blake2s.Size <=? xof.px e); [|discriminate].
      apply refill_frame in Heqo. destruct Heqo as (_ & _ & ? & _ & ? & _). lia.
    + destruct (emit k (advance e1)) as [[[e2 out2] err2]|] eqn:E;
        cbn [mbind option_bind] in H; [|discriminate].
      injection H as <- <- <-. apply Z.eqb_neq in Heqb.
      assert (H1 : 0 <= xof.px e1 < blake2s.Size /\ xof.left e1 = xof.left e).
      { destruct (Z.leb_spec blake2s.Size (xof.px e)).
        - apply refill_frame in Heqo. destruct Heqo as (_ & _ & ? & _ & ?).
          unfold blake2s.Size in *. lia.
        - injection Heqo as <-. unfold blake2s.Size in *. lia. }
      apply IH in E; cbn in *; unfold blake2s.Size in *; lia.
Qed.

(** C9. An engine made by [NewXOF] has [px] between 0 and 32 and
    [left] not negative, and so has every engine reached from it by
    [Write] and [Read] calls; each of these calls returns, and [left]
    after it is at most what it was before and not negative. The same
    bounds are kept by a [Read] on any engine that has them. *)
Theorem Write_Read_keep_bounds (σ σ' : store) (c : Config.t) (e0 : engine)
    (cs : list call) :
  Config.wf c ->
  NewXOF σ c = Some (σ', inr e0) ->
  (0 <= xof.px e0 <= 32 /\ 0 <= xof.left e0) /\
  (exists e, do_calls e0 cs = Some e /\
     0 <= xof.px e <= 32 /\ 0 <= xof.left e <= xof.left e0 /\
     (forall p, 0 <= xof.px (fst (Write e p)) <= 32 /\
                0 <= xof.left (fst (Write e p)) <= xof.left e) /\
     (forall p, exists e' p' nn err, Read e p = Some (e', p', nn, err) /\
                0 <= xof.px e' <= 32 /\ 0 <= xof.left e' <= xof.left e)) /\
  (forall (e e' : engine) p p' nn err,
     0 <= xof.px e <= 32 -> 0 <= xof.left e ->
     Read e p = Some (e', p', nn, err) ->
     0 <= xof.px e' <= 32 /\ 0 <= xof.left e' <= xof.left e).
Proof.
  intros Hc H. destruct (NewXOF_inv _ _ _ _ Hc H) as [I0 _].
  pose proof (inv_px _ I0) as Hpx0. pose proof (inv_left _ I0) as Hl0.
  unfold blake2s.Size in *. split_and!; try lia.
  - destruct (do_calls_inv cs e0 I0) as (e & He & I & Hl & _).
    exists e. pose proof (inv_px _ I) as Hpx. unfold blake2s.Size in Hpx.
    split_and!; try assumption; try lia.
    + intros p. destruct (Write_inv e p I) as (_ & -> & -> & _). lia.
    + intros p.
      destruct (Read_inv e p I) as (e' & p' & nn & err & HR & I' & Hnn & Hl' & _).
      exists e', p', nn, err. pose proof (inv_px _ I') as Hpx'.
      pose proof (inv_left _ I'). unfold blake2s.Size in Hpx'.
      split_and!; try assumption; lia.
  - intros e e' p p' nn err Hpx Hl HR. rewrite Read_emit in HR.
    destruct (emit (length p) (finalize e)) as [[[e1 out] err1]|] eqn:E; [|discriminate].
    injection HR as <- _ _ _.
    apply emit_bounds in E; unfold finalize, blake2s.Size in *;
      destruct (xof.h0 e); cbn in *; lia.
Qed.

(** C5. On an engine made by [NewXOF], as long as only [Write] calls
    have been made, [Write] hands the bytes to the root hash and
    returns what the root hash returns. Once a [Read] call has been
    made, whatever calls follow it, [Write] returns 0 and the error
    "blake2xs: cannot write after reading" and leaves the engine, and
    so the root hash, as it is. *)
Theorem Write_after_Read_rejected (σ σ' : store) (c : Config.t) (e0 : engine) :
  Config.wf c ->
  NewXOF σ c = Some (σ', inr e0) ->
  (forall (ws : list (list byte)) (p : list byte),
     exists e, do_calls e0 (CallWrite <$> ws) = Some e /\
       Write e p =
         (xof.set_rh (fst (blake2s.Write (xof.rh e) p)) e,
          snd (blake2s.Write (xof.rh e) p))) /\
  (forall (cs1 cs2 : list call) (q p : list byte),
     exists e, do_calls e0 (cs1 ++ CallRead q :: cs2) = Some e /\
       Write e p =
         (e, (0, Some (errors_New "blake2xs: cannot write after reading")))).
Proof.
  intros Hc H. destruct (NewXOF_inv _ _ _ _ Hc H) as [I0 Hh0]. split.
  - intros ws p.
    assert (Hws : forall e : engine, xof.h0 e = None ->
              exists e', do_calls e (CallWrite <$> ws) = Some e' /\ xof.h0 e' = None).
    { induction ws as [|w ws IH]; intros e He; cbn; [eauto|].
      apply IH. unfold Write. rewrite He.
      destruct (blake2s.Write (xof.rh e) w). exact He. }
    destruct (Hws e0 Hh0) as (e & He & Hh). exists e. split; [exact He|].
    unfold Write. rewrite Hh. destruct (blake2s.Write (xof.rh e) p). reflexivity.
  - intros cs1 cs2 q p. rewrite do_calls_app.
    destruct (do_calls_inv cs1 e0 I0) as (e1 & -> & I1 & _).
    cbn [mbind option_bind do_calls].
    destruct (do_call_inv e1 (CallRead q) I1) as (e2 & -> & I2 & _ & _ & Hr & _).
    cbn [mbind option_bind].
    destruct (do_calls_inv cs2 e2 I2) as (e & -> & _ & _ & Hh & _).
    exists e. split; [reflexivity|].
    destruct (Hh (Hr q eq_refl)) as [d Hd]. unfold Write. rewrite Hd. reflexivity.
Qed.

(** *** The claim about block generation *)

(** C1. In the reading phase, when the buffer is used up ([px] is 32)
    and bytes are left, the iteration of [Read] generates the next
    block: the size of the output config becomes [left] when [left] is
    below 32; a hash is made from the output config; the root digest,
    which is 32 bytes long, and nothing else is written into it; its
    digest, as long as the size of the output config, goes to the start
    of the buffer and [px] to 0; after that the node offset of the
    output config is one more than before. The iteration then stores
    the first byte of the block. *)
Theorem Read_generates_next_block (e : engine) (d : list byte) (h : blake2s.hash)
    (k i : nat) (p : list byte) (nn : Z) :
  xof_inv e ->
  xof.h0 e = Some d ->
  xof.px e = 32 ->
  0 < xof.left e ->
  let oc1 :=
    if xof.left e <? 32
    then blake2s.Config.set_Size (xof.left e) (xof.oc e)
    else xof.oc e in
  blake2s.New oc1 = inr h ->
  let block := blake2s.Sum (fst (blake2s.Write h d)) [] in
  exists tr e1 b,
    d = blake2s.Sum (xof.rh e) [] /\ length d = 32%nat /\
    Z.of_nat (length block) = blake2s.Config.Size oc1 /\
    blake2s.Config.Tree (xof.oc e) = Some tr /\
    refill e = Some (e1, None) /\
    e1 = xof.mk _ (xof.rh e)
           (blake2s.Config.set_Tree
              (Some (blake2s.Tree.set_NodeOffset (blake2s.Tree.NodeOffset tr + 1) tr))
              oc1)
           (Some d) (block ++ drop (length block) (xof.x e)) 0 (xof.left e) /\
    block !! 0%nat = Some b /\
    Read_loop (S k) i e p nn =
      Read_loop k (S i)
        (xof.set_left (xof.left e - 1) (xof.set_px 1 e1)) (<[i := b]> p) (nn + 1).
Proof.
  intros I Hd Hpx Hl oc1 HN block.
  pose proof I as [_ Il Ix Irh Ih0 Ios (tr & Itr & Ioff & Ioff')].
  unfold blake2s.Size in *. change UnknownSize with 65535 in *.
  pose proof (Ih0 d Hd) as Hd'.
  assert (Hoc1 : 1 <= blake2s.Config.Size oc1 <= 32 /\
                 blake2s.Config.Tree oc1 = Some tr).
  { subst oc1. destruct (xof.left e <? 32) eqn:E; [|auto].
    apply Z.ltb_lt in E. cbn. split; [lia|assumption]. }
  destruct Hoc1 as [Hsz Htr1].
  assert (Hblock : Z.of_nat (length block) = blake2s.Config.Size oc1).
  { subst block. rewrite blake2s.Sum_length; rewrite blake2s.Write_HashSize;
      rewrite (blake2s.New_HashSize _ _ HN); unfold blake2s.Size; lia. }
  assert (Hb : exists b, block !! 0%nat = Some b).
  { apply lookup_lt_is_Some. lia. }
  destruct Hb as [b Hb].
  assert (Hrefill : refill e =
            Some (xof.mk _ (xof.rh e)
                    (blake2s.Config.set_Tree
                       (Some (blake2s.Tree.set_NodeOffset (blake2s.Tree.NodeOffset tr + 1) tr))
                       oc1)
                    (Some d) (block ++ drop (length block) (xof.x e)) 0 (xof.left e),
                  None)).
  { assert (He0 : (if xof.left e <? blake2s.Size
                   then xof.set_oc (blake2s.Config.set_Size (uint8 (xof.left e)) (xof.oc e)) e
                   else e) = xof.set_oc oc1 e).
    { subst oc1. unfold blake2s.Size, uint8. destruct (xof.left e <? 32) eqn:E.
      - apply Z.ltb_lt in E. rewrite uint_small by lia. reflexivity.
      - destruct e; reflexivity. }
    unfold refill. rewrite He0.
    change (xof.oc (xof.set_oc oc1 e)) with oc1. rewrite HN.
    change (xof.h0 (xof.set_oc oc1 e)) with (xof.h0 e). rewrite Hd.
    change (bytes_of (Some d)) with d. fold block.
    change (xof.oc (xof.set_x _ (xof.set_oc oc1 e))) with oc1. rewrite Htr1.
    cbn. unfold sum_into.
    destruct (Nat.leb_spec (length block) (length (xof.x e))); [|lia].
    unfold uint64. rewrite uint_small by lia.
    unfold xof.set_px, xof.set_oc, xof.set_x. cbn. rewrite Hd. reflexivity. }
  eexists tr, _, b. split_and!; try eassumption; try reflexivity.
  - rewrite Hd'. apply Sum_nonempty. exact Irh.
  - cbn [Read_loop]. destruct (Z.eqb_spec (xof.left e) 0) as [|_]; [lia|].
    cbn [andb]. rewrite Hpx, Hrefill. cbn.
    unfold buffer_at. cbn. rewrite lookup_app_l by lia.
    change (Z.to_nat 0) with 0%nat. rewrite Hb. reflexivity.
Qed.

(** *** The claims about the stream *)

Lemma finalize_frame (e : engine) :
  xof.left (finalize e) = xof.left e /\
  (forall sz off, leaf_config (finalize e) sz off = leaf_config e sz off).
Proof. unfold finalize. destruct (xof.h0 e); split; reflexivity. Qed.

(** While the primitive accepts the output configs, [Read] fills [p]
    or hands back all that is left, with [io.EOF] in the second case
    only. *)
Lemma Read_ok (e : engine) (p : list byte) :
  xof_inv e -> accepts_leaves e ->
  exists e' p' nn,
    Read e p =
      Some (e', p', nn,
            if Z.of_nat (length p) <=? xof.left e then None else Some io_EOF) /\
    nn = Z.min (Z.of_nat (length p)) (xof.left e) /\
    length (returned (e', p', nn, @None error)) = Z.to_nat nn /\
    xof.left e' = xof.left e - nn /\ xof_inv e' /\ accepts_leaves e'.
Proof.
  intros I A. destruct (finalize_inv e I) as [If _].
  destruct (finalize_frame e) as [Hl HL].
  destruct (emit_ok (length p) (finalize e) If (accepts_frame _ _ HL A))
    as (e' & out & E & Hlen & I' & A').
  rewrite Read_emit, E. cbn [mbind option_bind]. rewrite Hl in *.
  eexists _, _, _. split; [reflexivity|].
  apply emit_frame in E. destruct E as (_ & _ & Hl' & _).
  split_and!; try assumption; try lia.
  cbn. rewrite Nat2Z.id, take_app_length. lia.
Qed.

(** Successive calls for no more than is left all fill their
    buffers. *)
Lemma Reads_ok (ps : list (list byte)) : forall e : engine,
  xof_inv e -> accepts_leaves e ->
  Z.of_nat (length (concat ps)) <= xof.left e ->
  exists e' rs,
    Reads e ps = Some (e', rs) /\
    Forall2 (fun p r => length (fst r) = length p /\ snd r = None) ps rs /\
    xof.left e' = xof.left e - Z.of_nat (length (concat ps)) /\
    xof_inv e' /\ accepts_leaves e'.
Proof.
  induction ps as [|p ps IH]; intros e I A Hlen.
  - exists e, []. cbn. split_and!; auto. lia.
  - cbn [concat] in Hlen. rewrite length_app in Hlen.
    destruct (Read_ok e p I A) as (e1 & p' & nn & HR & Hnn & Hret & Hl1 & I1 & A1).
    destruct (Z.leb_spec (Z.of_nat (length p)) (xof.left e)); [|lia].
    destruct (IH e1 I1 A1 ltac:(lia)) as (e' & rs & HRs & HF & Hl' & I' & A').
    cbn [Reads]. rewrite HR. cbn [mbind option_bind fst]. rewrite HRs.
    cbn [mbind option_bind]. eexists _, _. split; [reflexivity|].
    split_and!; try assumption.
    + constructor; [|exact HF]. cbn [fst snd]. split; [|reflexivity].
      cbn in Hret |- *. lia.
    + cbn [concat]. rewrite length_app. lia.
Qed.

(** C6. On an engine made by [NewXOF] and after any calls, while the
    primitive makes the hashes of the output blocks, [Read] hands back
    the smaller of [len(p)] and [left] bytes and takes them from [left].
    It hands back fewer than [len(p)] together with [io.EOF] exactly when
    fewer than [len(p)] bytes are left: then it hands back all that is
    left, and [left] is 0 afterwards; [io.EOF] is returned exactly when
    [left] has come to 0 with [p] not filled. Otherwise it fills [p] and
    returns no error. In particular calls that ask for the output length
    in total, after the writes, all fill their buffers without error and
    bring [left] to 0, and a further call with a buffer that is not empty
    returns 0 and [io.EOF]. *)
Theorem Read_short_exactly_at_end (σ σ' : store) (c : Config.t) (e0 : engine) :
  Config.wf c ->
  NewXOF σ c = Some (σ', inr e0) ->
  accepts_leaves e0 ->
  (forall (cs : list call) (p : list byte),
     exists e e' p' nn err,
       do_calls e0 cs = Some e /\ Read e p = Some (e', p', nn, err) /\
       0 <= nn <= Z.of_nat (length p) /\
       Z.of_nat (length (returned (e', p', nn, err))) = nn /\
       nn = Z.min (Z.of_nat (length p)) (xof.left e) /\
       xof.left e' = xof.left e - nn /\
       ((nn < Z.of_nat (length p) /\ err = Some io_EOF) <->
        xof.left e < Z.of_nat (length p)) /\
       (err = Some io_EOF <-> (xof.left e' = 0 /\ nn < Z.of_nat (length p))) /\
       (xof.left e < Z.of_nat (length p) ->
        nn = xof.left e /\ xof.left e' = 0 /\ err = Some io_EOF) /\
       (Z.of_nat (length p) <= xof.left e ->
        nn = Z.of_nat (length p) /\ err = None)) /\
  (forall (ws ps : list (list byte)) (q : list byte),
     Z.of_nat (length (concat ps)) =
       (if Config.Size c =? 0 then 2 ^ 16 - 1 else Config.Size c) ->
     q <> [] ->
     exists e e1 rs e2,
       do_calls e0 (CallWrite <$> ws) = Some e /\
       Reads e ps = Some (e1, rs) /\
       Forall2 (fun p r => length (fst r) = length p /\ snd r = None) ps rs /\
       xof.left e1 = 0 /\
       Read e1 q = Some (e2, q, 0, Some io_EOF)).
Proof.
  intros Hc H A0. destruct (NewXOF_inv _ _ _ _ Hc H) as [I0 _]. split.
  - intros cs p.
    destruct (do_calls_inv cs e0 I0) as (e & He & I & _ & _ & HL).
    destruct (Read_ok e p I (accepts_frame _ _ HL A0))
      as (e' & p' & nn & HR & Hnn & Hret & Hl' & I' & _).
    pose proof (inv_left _ I) as Hl.
    exists e, e', p', nn,
      (if Z.of_nat (length p) <=? xof.left e then None else Some io_EOF).
    split_and!; try eassumption; try lia.
    + cbn in Hret |- *. lia.
    + destruct (Z.leb_spec (Z.of_nat (length p)) (xof.left e)).
      * split; [intros [? [=]]|lia].
      * split; [lia|]. intros _. split; [lia|reflexivity].
    + destruct (Z.leb_spec (Z.of_nat (length p)) (xof.left e)).
      * split; [intros [=]|lia].
      * split; [lia|reflexivity].
    + intros Hlt. destruct (Z.leb_spec (Z.of_nat (length p)) (xof.left e)); [lia|].
      split_and!; [lia|lia|reflexivity].
    + intros Hle. destruct (Z.leb_spec (Z.of_nat (length p)) (xof.left e)); [|lia].
      split; [lia|reflexivity].
  - intros ws ps q Hlen Hq.
    destruct (do_calls_inv (CallWrite <$> ws) e0 I0) as (e & He & I & _ & _ & HL).
    assert (Hleft : xof.left e = xof.left e0).
    { clear -He. revert e0 He. induction ws as [|w ws IH]; intros e0 He.
      - injection He as <-. reflexivity.
      - cbn in He. apply IH in He. rewrite He. unfold Write.
        destruct (xof.h0 e0); [reflexivity|].
        destruct (blake2s.Write (xof.rh e0) w). reflexivity. }
    destruct (NewXOF_engine _ _ _ _ H) as (_ & rh & _ & _ & He0).
    destruct (outSize_of_range c Hc) as [_ Ho].
    assert (Hl0 : xof.left e0 = outSize_of c) by (rewrite He0; reflexivity).
    destruct (Reads_ok ps e I (accepts_frame _ _ HL A0) ltac:(lia))
      as (e1 & rs & HRs & HF & Hl1 & I1 & A1).
    destruct (Read_ok e1 q I1 A1) as (e2 & q' & nn & HR & Hnn & _ & _ & _ & _).
    assert (Hlq : 0 < Z.of_nat (length q)) by (destruct q; [congruence|cbn; lia]).
    assert (Hl1' : xof.left e1 = 0) by lia.
    rewrite Hl1' in *.
    destruct (Z.leb_spec (Z.of_nat (length q)) 0); [lia|].
    assert (nn = 0) by lia. subst nn.
    exists e, e1, rs, e2. split_and!; try assumption.
    rewrite HR. do 4 f_equal.
    rewrite Read_emit in HR.
    destruct (emit (length q) (finalize e1)) as [[[e3 out] err]|] eqn:E; [|discriminate].
    cbn in HR. injection HR as _ <- Hout _.
    destruct out; [reflexivity|cbn in Hout; lia].
    lia.
Qed.

(** C7. On an engine made by [NewXOF] and written to, successive
    [Read] calls hand back, taken together, the bytes that one [Read]
    call with a buffer of their total length hands back; all these calls
    return. This holds whatever the sizes of the buffers are, so also
    for sizes that are positive and sum to at most the declared size. *)
Theorem chunked_reads_equal_one_read (σ σ' : store) (c : Config.t) (e0 : engine)
    (msg : list byte) (ps : list (list byte)) (p : list byte) :
  Config.wf c ->
  NewXOF σ c = Some (σ', inr e0) ->
  length p = length (concat ps) ->
  exists e1 rs r,
    Reads (fst (Write e0 msg)) ps = Some (e1, rs) /\
    Read (fst (Write e0 msg)) p = Some r /\
    bytes_read rs = returned r.
Proof.
  intros Hc H Hp. destruct (NewXOF_inv _ _ _ _ Hc H) as [I0 _].
  destruct (Write_inv e0 msg I0) as [I _].
  destruct (Read_inv _ p I) as (e' & p' & nn & err & HR & _).
  pose proof (Reads_Read (fst (Write e0 msg)) ps p Hp) as HRR.
  rewrite HR in HRR.
  destruct (Reads (Write e0 msg).1 ps) as [[e1 rs]|]; [|discriminate].
  injection HRR as HRR. exists e1, rs, (e', p', nn, err).
  split_and!; [reflexivity|exact HR|exact HRR].
Qed.

(** *** The claim about prefixes *)

(** The tree the root config starts from. *)
Lemma root_config_base (σ σ' : store) (c : Config.t) rc :
  root_config σ c = Some (σ', rc) ->
  exists base,
    match Config.Tree c with
    | None => base = default_Tree
    | Some l => σ !! l = Some base
    end /\
    rc = blake2s.Config.mk blake2s.Size (Config.Key c) (Config.Salt c) (Config.Person c)
           (Some (blake2s.Tree.set_NodeOffset
                    (uint64 (blake2s.Tree.NodeOffset base + encoded_length (outSize_of c)))
                    base)).
Proof.
  unfold root_config. destruct (Config.Tree c) as [l|].
  - destruct (σ !! l) as [base|]; [|discriminate]. intros [= <- <-]. eauto.
  - intros [= <- <-]. eauto.
Qed.

(** A shorter read is a prefix of a longer one from the same state. *)
Lemma Read_prefix (e : engine) (p1 p2 : list byte) r1 r2 :
  (length p1 <= length p2)%nat ->
  Read e p1 = Some r1 -> Read e p2 = Some r2 ->
  returned r1 `prefix_of` returned r2.
Proof.
  intros Hlen H1 H2.
  pose proof (Read_returned e p1) as E1. pose proof (Read_returned e p2) as E2.
  rewrite H1 in E1. rewrite H2 in E2. cbn in E1, E2.
  replace (length p2) with (length p1 + (length p2 - length p1))%nat in E2 by lia.
  rewrite emit_app in E2.
  destruct (emit (length p1) (finalize e)) as [[[e1 o1] err1]|]; [|discriminate].
  injection E1 as ->. cbn in E2. destruct err1.
  - injection E2 as ->. reflexivity.
  - destruct (emit _ e1) as [[[e2 o2] err2]|]; [|discriminate].
    injection E2 as ->. cbn. apply prefix_app_r. reflexivity.
Qed.

Lemma shifted_lengths_differ (off l1 l2 : Z) :
  0 <= l1 < 2 ^ 16 -> 0 <= l2 < 2 ^ 16 -> l1 <> l2 ->
  uint64 (off + Z.shiftl l1 32) <> uint64 (off + Z.shiftl l2 32).
Proof.
  intros H1 H2 Hne. unfold uint64. rewrite !Z.shiftl_mul_pow2 by lia.
  intros Heq.
  pose proof (Z.div_mod (off + l1 * 2 ^ 32) (2 ^ 64) ltac:(lia)) as E1.
  pose proof (Z.div_mod (off + l2 * 2 ^ 32) (2 ^ 64) ltac:(lia)) as E2.
  rewrite Heq in E1.
  set (q1 := (off + l1 * 2 ^ 32) / 2 ^ 64) in *.
  set (q2 := (off + l2 * 2 ^ 32) / 2 ^ 64) in *.
  set (r := (off + l2 * 2 ^ 32) mod 2 ^ 64) in *.
  assert (E : l1 - l2 = 2 ^ 32 * (q1 - q2)).
  { apply (Z.mul_cancel_l _ _ (2 ^ 32)); [lia|].
    change (2 ^ 64) with (2 ^ 32 * 2 ^ 32) in *. lia. }
  change (2 ^ 16) with 65536 in *. change (2 ^ 32) with 4294967296 in *. lia.
Qed.

(** C4, as amended. Take two configurations with the same key, salt,
    person and tree parameters, an engine made from each, and the same
    message written to both. When they declare the same size, in
    particular when both declare 0 for [UnknownSize], what a [Read] for
    [len(p1)] bytes hands back from the one is a prefix of what a [Read]
    for [len(p2) >= len(p1)] bytes hands back from the other. When they
    declare different sizes other than 0, the root hashes are made from
    root configs whose node offsets differ: each is the node offset of
    the tree parameters plus the declared size shifted left by 32. *)
Theorem prefix_for_equal_declared_size (σ1 σ2 σ1' σ2' : store) (c1 c2 : Config.t)
    (e1 e2 : engine) (msg p1 p2 : list byte) :
  Config.wf c1 -> Config.wf c2 ->
  Config.Key c1 = Config.Key c2 ->
  Config.Salt c1 = Config.Salt c2 ->
  Config.Person c1 = Config.Person c2 ->
  tree_parameters σ1 c1 = tree_parameters σ2 c2 ->
  NewXOF σ1 c1 = Some (σ1', inr e1) ->
  NewXOF σ2 c2 = Some (σ2', inr e2) ->
  (length p1 <= length p2)%nat ->
  (Config.Size c1 = Config.Size c2 ->
   exists r1 r2,
     Read (fst (Write e1 msg)) p1 = Some r1 /\
     Read (fst (Write e2 msg)) p2 = Some r2 /\
     returned r1 `prefix_of` returned r2) /\
  (Config.Size c1 <> 0 -> Config.Size c2 <> 0 -> Config.Size c1 <> Config.Size c2 ->
   exists rc1 rc2 t1 t2 base,
     root_config σ1 c1 = Some (σ1', rc1) /\ blake2s.New rc1 = inr (xof.rh e1) /\
     root_config σ2 c2 = Some (σ2', rc2) /\ blake2s.New rc2 = inr (xof.rh e2) /\
     blake2s.Config.Tree rc1 = Some t1 /\ blake2s.Config.Tree rc2 = Some t2 /\
     tree_parameters σ1 c1 = Some base /\
     blake2s.Tree.NodeOffset t1 =
       uint64 (blake2s.Tree.NodeOffset base + Z.shiftl (Config.Size c1) 32) /\
     blake2s.Tree.NodeOffset t2 =
       uint64 (blake2s.Tree.NodeOffset base + Z.shiftl (Config.Size c2) 32) /\
     blake2s.Tree.NodeOffset t1 <> blake2s.Tree.NodeOffset t2).
Proof.
  intros Hc1 Hc2 HK HS HP HT H1 H2 Hlen.
  destruct (NewXOF_engine _ _ _ _ H1) as (rc1 & rh1 & Hrc1 & Hn1 & He1).
  destruct (NewXOF_engine _ _ _ _ H2) as (rc2 & rh2 & Hrc2 & Hn2 & He2).
  destruct (root_config_base _ _ _ _ Hrc1) as (b1 & Hb1 & Er1).
  destruct (root_config_base _ _ _ _ Hrc2) as (b2 & Hb2 & Er2).
  assert (Hp1 : tree_parameters σ1 c1 = Some b1).
  { unfold tree_parameters. destruct (Config.Tree c1); congruence. }
  assert (Hp2 : tree_parameters σ2 c2 = Some b2).
  { unfold tree_parameters. destruct (Config.Tree c2); congruence. }
  assert (b1 = b2) by congruence. subst b2.
  destruct (outSize_of_range c1 Hc1) as [Hr1 Ho1].
  destruct (outSize_of_range c2 Hc2) as [Hr2 Ho2].
  split.
  - intros Hsz.
    assert (Hout : outSize_of c1 = outSize_of c2) by (unfold outSize_of; rewrite Hsz; reflexivity).
    assert (Heq : e1 = e2).
    { rewrite He1, He2. unfold output_config. rewrite <- Hout, <- HS, <- HP.
      f_equal. rewrite Er1, Er2, <- HK, <- HS, <- HP, <- Hout in *. congruence. }
    rewrite <- Heq. destruct (NewXOF_inv _ _ _ _ Hc1 H1) as [I0 _].
    destruct (Write_inv e1 msg I0) as [I _].
    destruct (Read_inv _ p1 I) as (? & ? & ? & ? & HR1 & _).
    destruct (Read_inv _ p2 I) as (? & ? & ? & ? & HR2 & _).
    eexists _, _. split_and!; [exact HR1|exact HR2|].
    eapply Read_prefix; eassumption.
  - intros Hz1 Hz2 Hne.
    apply Z.eqb_neq in Hz1, Hz2. rewrite Hz1 in Ho1. rewrite Hz2 in Ho2.
    unfold Config.wf in *.
    destruct (encoded_length_small (outSize_of c1) ltac:(lia)) as [Hl1 _].
    destruct (encoded_length_small (outSize_of c2) ltac:(lia)) as [Hl2 _].
    rewrite Hl1, Ho1 in Er1. rewrite Hl2, Ho2 in Er2.
    exists rc1, rc2. eexists _, _, b1.
    split_and!; try eassumption.
    + rewrite He1. exact Hn1.
    + rewrite He2. exact Hn2.
    + rewrite Er1. reflexivity.
    + rewrite Er2. reflexivity.
    + reflexivity.
    + reflexivity.
    + cbn. apply shifted_lengths_differ; assumption.
Qed.
End Theory.

(** ** BLAKE2s meets the contract *)

Lemma BLAKE2s_F_length (h m : list Z) (t : Z) (f0 f1 : bool) :
  length (BLAKE2s.F h m t f0 f1) = 8%nat.
Proof. unfold BLAKE2s.F. rewrite length_map, length_seq. reflexivity. Qed.

Lemma BLAKE2s_absorb_length (fuel : nat) : forall f1 h t input,
  length h = 8%nat -> length (BLAKE2s.absorb fuel f1 h t input) = 8%nat.
Proof.
  induction fuel as [|fuel IH]; intros f1 h t input Hh; cbn [BLAKE2s.absorb].
  - exact Hh.
  - destruct (length input <=? 64)%nat.
    + apply BLAKE2s_F_length.
    + apply IH, BLAKE2s_F_length.
Qed.

Lemma BLAKE2s_digest_length (c : blake2s.Config.t) (data : list byte) :
  0 <= blake2s.Config.Size c <= 32 ->
  Z.of_nat (length (BLAKE2s.digest c data)) = blake2s.Config.Size c.
Proof.
  intros Hsz. unfold BLAKE2s.digest.
  set (hs := BLAKE2s.absorb _ _ _ _ _).
  assert (Hhs : length hs = 8%nat).
  { apply BLAKE2s_absorb_length. rewrite length_zip_with.
    unfold BLAKE2s.le_words. rewrite length_map, length_seq. reflexivity. }
  assert (Hb : length (concat (map BLAKE2s.le_bytes hs)) = 32%nat).
  { do 9 (destruct hs as [|? hs]; try discriminate). reflexivity. }
  rewrite length_take, Hb. lia.
Qed.

#[global] Instance BLAKE2s_lawful : blake2s.Lawful BLAKE2s.primitive.
Proof.
  constructor.
  - intros h b. reflexivity.
  - intros h Hsz. cbn. apply BLAKE2s_digest_length, Hsz.
  - intros h p. reflexivity.
  - intros c h. cbn. unfold BLAKE2s.New.
    destruct (BLAKE2s.verifyConfig c); [discriminate|]. intros [= <-] _. reflexivity.
Qed.

(** The test vectors of RFC 7693 (appendix B) and of the reference
    implementation for the empty message. *)
Lemma BLAKE2s_abc :
  BLAKE2s.hex (BLAKE2s.digest (blake2s.Config.mk 32 [] [] [] None) Sample.abc) =
  "508c5e8c327c14e2e1a72ba34eeb452f37458b209ed63a294d999b4c86675982"%string.
Proof. vm_compute. reflexivity. Qed.

Lemma BLAKE2s_empty :
  BLAKE2s.hex (BLAKE2s.digest (blake2s.Config.mk 32 [] [] [] None) []) =
  "69217a3079908094e11121d042354a7c1f55b6482ca1a51e1b250dfd1ed0eef9"%string.
Proof. vm_compute. reflexivity. Qed.

Lemma BLAKE2s_verifyConfig_None (c : blake2s.Config.t) :
  BLAKE2s.verifyConfig c = None <->
  blake2s.Config.Size c <= 32 /\
  (length (blake2s.Config.Key c) <= 32)%nat /\
  (length (blake2s.Config.Salt c) <= 8)%nat /\
  (length (blake2s.Config.Person c) <= 8)%nat /\
  match blake2s.Config.Tree c with
  | Some tr => blake2s.Tree.InnerHashSize tr <= 32 /\ blake2s.Tree.NodeOffset tr <= 2 ^ 48 - 1
  | None => True
  end.
Proof.
  unfold BLAKE2s.verifyConfig.
  destruct (Z.ltb_spec 32 (blake2s.Config.Size c)); [split; [discriminate|lia]|].
  destruct (Nat.ltb_spec 32 (length (blake2s.Config.Key c))); [split; [discriminate|lia]|].
  destruct (Nat.ltb_spec 8 (length (blake2s.Config.Salt c))); [split; [discriminate|lia]|].
  destruct (Nat.ltb_spec 8 (length (blake2s.Config.Person c))); [split; [discriminate|lia]|].
  destruct (blake2s.Config.Tree c) as [tr|]; [|split; [intros _; split_and!; auto; lia|reflexivity]].
  destruct (Z.ltb_spec 32 (blake2s.Tree.InnerHashSize tr)); [split; [discriminate|lia]|].
  destruct (Z.ltb_spec (2 ^ 48 - 1) (blake2s.Tree.NodeOffset tr)); [split; [discriminate|lia]|].
  split; [intros _; split_and!; auto; lia|reflexivity].
Qed.

(** BLAKE2s makes the hash of every output block of an engine whose root
    hash it has made: the salt and the person are those of the root config,
    and the node offsets stay below 2^48. *)
Lemma BLAKE2s_accepts_leaves (σ σ' : store) (c : Config.t)
    (e : xof.t (@blake2s.hash BLAKE2s.primitive)) :
  NewXOF σ c = Some (σ', inr e) -> accepts_leaves e.
Proof.
  intros H. destruct (NewXOF_engine _ _ _ _ H) as (rc & rh & Hrc & Hn & ->).
  destruct (root_config_base _ _ _ _ Hrc) as (base & _ & ->).
  change (BLAKE2s.New {|
            blake2s.Config.Size := blake2s.Size;
            blake2s.Config.Key := Config.Key c;
            blake2s.Config.Salt := Config.Salt c;
            blake2s.Config.Person := Config.Person c;
            blake2s.Config.Tree :=
              Some (blake2s.Tree.set_NodeOffset
                      (uint64 (blake2s.Tree.NodeOffset base + encoded_length (outSize_of c)))
                      base) |} = inr rh) in Hn.
  unfold BLAKE2s.New in Hn.
  destruct (BLAKE2s.verifyConfig _) eqn:Ev in Hn; [discriminate|].
  apply BLAKE2s_verifyConfig_None in Ev. cbn in Ev. destruct Ev as (_ & _ & Hs & Hp & _).
  intros sz off Hsz Hoff. unfold blake2s.Size in Hsz.
  change (exists h, BLAKE2s.New
            (blake2s.Config.mk sz [] (Config.Salt c) (Config.Person c)
               (Some (blake2s.Tree.mk 0 0 32 off 0 32 false))) = inr h).
  unfold BLAKE2s.New.
  destruct (BLAKE2s.verifyConfig _) eqn:Ev; [|eauto].
  exfalso. assert (Hn' : BLAKE2s.verifyConfig
            (blake2s.Config.mk sz [] (Config.Salt c) (Config.Person c)
               (Some (blake2s.Tree.mk 0 0 32 off 0 32 false))) = None).
  { apply BLAKE2s_verifyConfig_None. cbn. split_and!; try assumption; lia. }
  congruence.
Qed.

(** ** The properties on sample inputs *)

Lemma cfg64_wf : Config.wf Sample.cfg64.
Proof. unfold Config.wf. cbn. lia. Qed.

Lemma cfg0_wf : Config.wf Sample.cfg0.
Proof. unfold Config.wf. cbn. lia. Qed.

Lemma NewXOF_cfg64 : NewXOF ∅ Sample.cfg64 = Some (∅, inr Sample.eng64).
Proof. reflexivity. Qed.

Lemma NewXOF_cfg0 : NewXOF ∅ Sample.cfg0 = Some (∅, inr Sample.eng0).
Proof. reflexivity. Qed.

Lemma NewXOF_root_config_and_engine_witness :
  exists σ' e, NewXOF ∅ Sample.cfg64 = Some (σ', inr e) /\
    xof.px e = 32 /\ xof.left e = 64.
Proof.
  destruct (NewXOF_root_config_and_engine ∅ Sample.cfg64 cfg64_wf)
    as (σ' & base & Hb & _ & _ & H).
  - intros l Hl. discriminate Hl.
  - rewrite (Hb eq_refl) in H.
    destruct (blake2s.New _) as [err|rh] eqn:E in H; [vm_compute in E; discriminate|].
    destruct H as (e & He & _ & Hpx & Hleft).
    exists σ', e. split_and!; [exact He|exact Hpx|exact Hleft].
Defined.

Lemma NewXOF_output_config_witness :
  xof.oc Sample.eng64 =
    blake2s.Config.mk 32 [] [] []
      (Some (blake2s.Tree.mk 0 0 32 (Z.shiftl 64 32) 0 32 false)) /\
  UnknownSize = 65535.
Proof.
  destruct (NewXOF_output_config ∅ ∅ Sample.cfg64 Sample.eng64 cfg64_wf NewXOF_cfg64)
    as (Hoc & _ & _ & Hu).
  split; [exact Hoc|exact Hu].
Defined.

Lemma Write_Read_keep_bounds_witness :
  exists e,
    do_calls Sample.eng64 [CallWrite Sample.abc; CallRead (Sample.buffer 10)] = Some e /\
    0 <= xof.px e <= 32 /\ 0 <= xof.left e <= 64.
Proof.
  destruct (Write_Read_keep_bounds ∅ ∅ Sample.cfg64 Sample.eng64
              [CallWrite Sample.abc; CallRead (Sample.buffer 10)] cfg64_wf NewXOF_cfg64)
    as (_ & (e & He & Hpx & Hl & _) & _).
  exists e. split; [exact He|split; [exact Hpx|exact Hl]].
Defined.

Lemma Write_after_Read_rejected_witness :
  exists e,
    do_calls Sample.eng64 ([CallWrite Sample.abc] ++ CallRead (Sample.buffer 4) :: []) = Some e /\
    Write e Sample.abc =
      (e, (0, Some (errors_New "blake2xs: cannot write after reading"))).
Proof.
  exact (proj2 (Write_after_Read_rejected ∅ ∅ Sample.cfg64 Sample.eng64 cfg64_wf NewXOF_cfg64)
           [CallWrite Sample.abc] [] (Sample.buffer 4) Sample.abc).
Defined.

Lemma eng64_written_inv : xof_inv (finalize (fst (Write Sample.eng64 Sample.abc))).
Proof.
  apply finalize_inv, Write_inv.
  exact (proj1 (NewXOF_inv _ _ _ _ cfg64_wf NewXOF_cfg64)).
Qed.

Lemma Read_generates_next_block_witness :
  exists e1,
    refill (finalize (fst (Write Sample.eng64 Sample.abc))) = Some (e1, None) /\
    xof.px e1 = 0 /\
    blake2s.Tree.NodeOffset <$> blake2s.Config.Tree (xof.oc e1) = Some (Z.shiftl 64 32 + 1).
Proof.
  destruct (Read_generates_next_block
              (finalize (fst (Write Sample.eng64 Sample.abc)))
              (BLAKE2s.digest
                 (blake2s.Config.mk 32 [] [] []
                    (Some (blake2s.Tree.mk 1 1 0 (Z.shiftl 64 32) 0 0 false)))
                 Sample.abc)
              (BLAKE2s.mk (xof.oc Sample.eng64) [])
              0 0 (Sample.buffer 1) 0 eng64_written_inv)
    as (tr & e1 & b & _ & _ & _ & Htr & Hr & He1 & _).
  - reflexivity.
  - reflexivity.
  - vm_compute. reflexivity.
  - reflexivity.
  - exists e1. split; [exact Hr|]. rewrite He1.
    injection Htr as <-. split; reflexivity.
Defined.

Lemma Read_short_exactly_at_end_witness :
  exists e e1 rs e2,
    do_calls Sample.eng64 (CallWrite <$> [Sample.abc]) = Some e /\
    Reads e [Sample.buffer 64] = Some (e1, rs) /\
    Forall2 (fun p r => length (fst r) = length p /\ snd r = None) [Sample.buffer 64] rs /\
    xof.left e1 = 0 /\
    Read e1 (Sample.buffer 1) = Some (e2, Sample.buffer 1, 0, Some io_EOF).
Proof.
  refine (proj2 (Read_short_exactly_at_end ∅ ∅ Sample.cfg64 Sample.eng64 cfg64_wf NewXOF_cfg64
                   (BLAKE2s_accepts_leaves _ _ _ _ NewXOF_cfg64))
            [Sample.abc] [Sample.buffer 64] (Sample.buffer 1) _ _).
  - reflexivity.
  - discriminate.
Defined.

Lemma chunked_reads_equal_one_read_witness :
  exists e1 rs r,
    Reads (fst (Write Sample.eng64 Sample.abc)) [Sample.buffer 10; Sample.buffer 54]
      = Some (e1, rs) /\
    Read (fst (Write Sample.eng64 Sample.abc)) (Sample.buffer 64) = Some r /\
    bytes_read rs = returned r.
Proof.
  apply (chunked_reads_equal_one_read ∅ ∅ Sample.cfg64 Sample.eng64 Sample.abc
           [Sample.buffer 10; Sample.buffer 54] (Sample.buffer 64) cfg64_wf NewXOF_cfg64).
  reflexivity.
Defined.

Lemma prefix_for_equal_declared_size_witness :
  exists r1 r2,
    Read (fst (Write Sample.eng0 Sample.abc)) (Sample.buffer 5) = Some r1 /\
    Read (fst (Write Sample.eng0 Sample.abc)) (Sample.buffer 40) = Some r2 /\
    returned r1 `prefix_of` returned r2.
Proof.
  refine (proj1 (prefix_for_equal_declared_size ∅ ∅ ∅ ∅ Sample.cfg0 Sample.cfg0
                   Sample.eng0 Sample.eng0 Sample.abc (Sample.buffer 5) (Sample.buffer 40)
                   cfg0_wf cfg0_wf eq_refl eq_refl eq_refl eq_refl NewXOF_cfg0 NewXOF_cfg0 _)
            eq_refl).
  cbn. lia.
Defined.

(** ** Where the code departs from the specification *)

(** C4, as stated, fails: with the message "58" the one byte read from an
    engine of declared size 1 is a prefix of the two bytes read from an
    engine of declared size 2. *)
Lemma finite_sizes_prefix_counterexample :
  exists o1 o2,
    output ∅ (Config.mk 1 [] [] [] None) (BLAKE2s.bytes "58") (Sample.buffer 1)
      = Some (∅, o1) /\
    output ∅ (Config.mk 2 [] [] [] None) (BLAKE2s.bytes "58") (Sample.buffer 2)
      = Some (∅, o2) /\
    length o1 = 1%nat /\ length o2 = 2%nat /\
    o1 `prefix_of` o2.
Proof.
  exists [Byte.x74], [Byte.x74; Byte.xe2].
  split_and!; try (vm_compute; reflexivity).
  exists [Byte.xe2]. reflexivity.
Qed.

(** [NewXOF] writes the sum into the tree the caller's [Config] points
    to, whatever the primitive then says. *)
Lemma NewXOF_store {P : blake2s.Primitive} (σ : store) (c : Config.t) :
  match Config.Tree c with
  | None => exists r, NewXOF σ c = Some (σ, r)
  | Some l =>
      forall tr, σ !! l = Some tr ->
      exists r,
        NewXOF σ c =
          Some (<[l := blake2s.Tree.set_NodeOffset
                         (uint64 (blake2s.Tree.NodeOffset tr + encoded_length (outSize_of c)))
                         tr]> σ, r)
  end.
Proof.
  unfold NewXOF, root_config. destruct (Config.Tree c) as [l|].
  - intros tr ->. cbn. destruct (blake2s.New _); eauto.
  - cbn. destruct (blake2s.New _); eauto.
Qed.

(** C10: the code does not leave the caller's tree alone. For
    [t := &blake2s.Tree{Fanout: 1, MaxDepth: 1}] and
    [c := &Config{Size: 64, Tree: t}], the root config is given the
    parameters of [t], but after [NewXOF(c)] the node offset of [t] is
    [64 << 32] and no longer 0. *)
Theorem NewXOF_changes_caller_tree :
  exists σ' e rc tr',
    NewXOF Sample.store_tree Sample.cfg64_tree = Some (σ', inr e) /\
    root_config Sample.store_tree Sample.cfg64_tree = Some (σ', rc) /\
    blake2s.Config.Tree rc = Some (blake2s.Tree.mk 1 1 0 (Z.shiftl 64 32) 0 0 false) /\
    Sample.store_tree !! 1%positive = Some (blake2s.Tree.mk 1 1 0 0 0 0 false) /\
    σ' !! 1%positive = Some tr' /\
    blake2s.Tree.NodeOffset tr' = Z.shiftl 64 32 /\
    σ' !! 1%positive <> Sample.store_tree !! 1%positive.
Proof.
  destruct (NewXOF Sample.store_tree Sample.cfg64_tree) as [[σ' [err|e]]|] eqn:E;
    vm_compute in E; try discriminate.
  injection E as <- <-. eexists _, _, _, _.
  split_and!; try reflexivity. vm_compute. discriminate.
Qed.

(** C8: the code does not give the same output when the construction is
    repeated from one configuration with a tree. For
    [c := &Config{Size: 64, Tree: &blake2s.Tree{Fanout: 1, MaxDepth: 1}}]
    and the message "abc", [NewXOF(c)], [Write] and a [Read] of 64 bytes,
    done twice, give different bytes: the first construction leaves the
    node offset [64 << 32] in the tree of [c], and the second makes its
    root hash with the node offset [128 << 32]. *)
Theorem repeated_construction_differs :
  let t64 := blake2s.Tree.mk 1 1 0 (Z.shiftl 64 32) 0 0 false in
  let t128 := blake2s.Tree.mk 1 1 0 (Z.shiftl 128 32) 0 0 false in
  let o1 := BLAKE2s.unhex
    "efc558202baf61be20d27f9c65d735f9274fae9715f9bbd1d7ca0ab2f5c3ddb774d415f79d2263d193911018f1137b276e78c4f8811926a2ab80b16efa1f0973" in
  let o2 := BLAKE2s.unhex
    "f33b9a678cd8b07251487d75018056219f5bfe17f8c813bae777d527bd8d7637b7dd5aba6417ebb026cc0f490076b73aef43e1296b5c94b0ba4ce37587177754" in
  output Sample.store_tree Sample.cfg64_tree Sample.abc (Sample.buffer 64)
    = Some ({[ 1%positive := t64 ]}, o1) /\
  output {[ 1%positive := t64 ]} Sample.cfg64_tree Sample.abc (Sample.buffer 64)
    = Some ({[ 1%positive := t128 ]}, o2) /\
  o1 <> o2.
Proof.
  split_and!.
  - vm_compute. reflexivity.
  - vm_compute. reflexivity.
  - intros H. apply (f_equal (fun l => nth 0 l Byte.x00)) in H.
    vm_compute in H. discriminate H.
Qed.

(** * Further properties *)

Section Further.
Context {P : blake2s.Primitive}.

Abbreviation engine := (xof.t blake2s.hash).

(** ** The caller's store *)

(** X1. [NewXOF] touches at most the tree its [Config] points to: every
    other tree of the store is as before, and with a nil [Tree] the store
    is. The tree pointed to gets the output length shifted left by 32
    added to its node offset, also when [blake2s.New] then refuses the
    root config. *)
Theorem NewXOF_store_effect (σ σ' : store) (c : Config.t) (r : error + engine) :
  NewXOF σ c = Some (σ', r) ->
  (Config.Tree c = None -> σ' = σ) /\
  (forall l', Config.Tree c <> Some l' -> σ' !! l' = σ !! l') /\
  (forall l, Config.Tree c = Some l ->
     exists tr, σ !! l = Some tr /\
       σ' !! l = Some (blake2s.Tree.mk (blake2s.Tree.Fanout tr) (blake2s.Tree.MaxDepth tr)
                         (blake2s.Tree.LeafSize tr)
                         (uint64 (blake2s.Tree.NodeOffset tr
                                  + uint64 (Z.shiftl (uint64 (outSize_of c)) 32)))
                         (blake2s.Tree.NodeDepth tr) (blake2s.Tree.InnerHashSize tr)
                         (blake2s.Tree.IsLastNode tr))) /\
  dom σ' = dom σ.
Proof.
  unfold NewXOF, root_config. destruct (Config.Tree c) as [l|].
  - destruct (σ !! l) as [tr|] eqn:Hl; [|discriminate]. cbn [mbind option_bind].
    intros H.
    assert (Hσ : σ' = <[l := blake2s.Tree.set_NodeOffset
                          (uint64 (blake2s.Tree.NodeOffset tr + encoded_length (outSize_of c)))
                          tr]> σ).
    { destruct (blake2s.New _) in H; injection H as <-; reflexivity. }
    subst σ'. split_and!.
    + discriminate.
    + intros l' Hne. apply lookup_insert_ne. congruence.
    + intros l0 Hl0. injection Hl0 as <-. exists tr. split; [exact Hl|].
      apply lookup_insert_eq.
    + apply dom_insert_lookup_L. rewrite Hl. eauto.
  - cbn [mbind option_bind]. intros H.
    assert (Hσ : σ' = σ) by (destruct (blake2s.New _) in H; injection H as <-; reflexivity).
    subst σ'. split_and!; [reflexivity|reflexivity|discriminate|reflexivity].
Qed.

(** ** What an engine depends on *)

(** X2. The engine [NewXOF] returns depends only on the output length,
    the key, the salt, the person and the tree parameters: two
    configurations that agree on these give the same result, in whatever
    stores. So a declared size of 65535 is the same as an unknown size,
    and a nil tree the same as one with fanout 1 and maximal depth 1. *)
Theorem NewXOF_depends_on_parameters (σ1 σ2 : store) (c1 c2 : Config.t) :
  outSize_of c1 = outSize_of c2 ->
  Config.Key c1 = Config.Key c2 ->
  Config.Salt c1 = Config.Salt c2 ->
  Config.Person c1 = Config.Person c2 ->
  tree_parameters σ1 c1 = tree_parameters σ2 c2 ->
  snd <$> NewXOF σ1 c1 = snd <$> NewXOF σ2 c2.
Proof.
  intros Ho HK HS HP HT. unfold NewXOF, root_config, output_config, tree_parameters in *.
  rewrite <- Ho, <- HK, <- HS, <- HP.
  destruct (Config.Tree c1) as [l1|], (Config.Tree c2) as [l2|].
  - rewrite <- HT. destruct (σ1 !! l1); [|reflexivity]. cbn.
    destruct (blake2s.New _); reflexivity.
  - rewrite HT. cbn. destruct (blake2s.New _); reflexivity.
  - rewrite <- HT. cbn. destruct (blake2s.New _); reflexivity.
  - cbn. destruct (blake2s.New _); reflexivity.
Qed.

(** ** The buffer of [Read] *)

(** X3. [Read] stores the bytes it hands back at the start of [p] and
    leaves the rest of [p] as it was; [nn] is their number. What it
    returns depends on [p] only through its length. *)
Theorem Read_buffer_frame (e e' : engine) (p p' : list byte) (nn : Z) (err : option error) :
  Read e p = Some (e', p', nn, err) ->
  0 <= nn <= Z.of_nat (length p) /\
  length p' = length p /\
  p' = take (Z.to_nat nn) p' ++ drop (Z.to_nat nn) p /\
  (forall q, length q = length p ->
     Read e q = Some (e', take (Z.to_nat nn) p' ++ drop (Z.to_nat nn) q, nn, err)).
Proof.
  rewrite Read_emit.
  destruct (emit (length p) (finalize e)) as [[[e1 out] err1]|] eqn:E; [|discriminate].
  intros [= <- <- <- <-]. pose proof (emit_length _ _ _ _ _ E) as Hlen.
  rewrite Nat2Z.id, take_app_length. split_and!.
  - lia.
  - lia.
  - rewrite length_app, length_drop. lia.
  - reflexivity.
  - intros q Hq. rewrite Read_emit, Hq, E. reflexivity.
Qed.

(** ** Errors *)

Lemma emit_stuck_same (k : nat) : forall (e e' : engine) out err,
  emit k e = Some (e', out, Some err) ->
  forall j, emit (S j) e' = Some (e', [], Some err).
Proof.
  induction k as [|k IH]; intros e e' out err H; [discriminate|].
  cbn [emit] in H. destruct (xof.left e =? 0) eqn:El.
  - injection H as <- <- <-. intros j. cbn [emit]. rewrite El. reflexivity.
  - destruct (if blake2s.Size <=? xof.px e then refill e else Some (e, None))
      as [[e1 [err1|]]|] eqn:Es; cbn [mbind option_bind] in H; [| |discriminate].
    + injection H as <- <- <-. intros j. cbn [emit].
      destruct (blake2s.Size <=? xof.px e) eqn:Epx; [|discriminate].
      apply refill_frame in Es. destruct Es as (_ & _ & Hl & _ & Hp & Hr).
      rewrite Hl, El, Hp, Epx, Hr. reflexivity.
    + destruct (buffer_at e1) as [b|]; cbn [mbind option_bind] in H; [|discriminate].
      destruct (emit k (advance e1)) as [[[e2 out2] err2]|] eqn:E;
        cbn [mbind option_bind] in H; [|discriminate].
      injection H as <- <- ->. eapply IH, E.
Qed.

(** X4. An error of [Read] stays: once a call has returned an error,
    [io.EOF] or the error of the primitive, every later call with a buffer
    that is not empty returns no byte and the same error, and leaves the
    engine and the buffer as they are; a call with an empty buffer returns
    0 and no error. *)
Theorem Read_error_repeats (e e' : engine) (p p' : list byte) (nn : Z) (err : error) :
  Read e p = Some (e', p', nn, Some err) ->
  (forall q, q <> [] -> Read e' q = Some (e', q, 0, Some err)) /\
  Read e' [] = Some (e', [], 0, None).
Proof.
  rewrite Read_emit.
  destruct (emit (length p) (finalize e)) as [[[e1 out] err1]|] eqn:E; [|discriminate].
  intros [= <- <- <- ->].
  pose proof (emit_finalized _ _ _ _ _ (finalize_idem e) E) as Hf. split.
  - intros [|b q] Hq; [congruence|]. rewrite Read_emit, Hf. cbn [length].
    rewrite (emit_stuck_same _ _ _ _ _ E). reflexivity.
  - unfold Read. rewrite Hf. reflexivity.
Qed.

(** ** The refill, in full *)

(** What a refill that succeeds does to the engine. *)
Lemma refill_result (e e1 : engine) :
  refill e = Some (e1, None) ->
  exists h tr,
    let oc1 := if xof.left e <? 32
               then blake2s.Config.set_Size (uint8 (xof.left e)) (xof.oc e)
               else xof.oc e in
    blake2s.New oc1 = inr h /\ blake2s.Config.Tree (xof.oc e) = Some tr /\
    e1 = xof.mk _ (xof.rh e)
           (blake2s.Config.set_Tree
              (Some (blake2s.Tree.set_NodeOffset (uint64 (blake2s.Tree.NodeOffset tr + 1)) tr))
              oc1)
           (xof.h0 e)
           (sum_into (blake2s.Sum (fst (blake2s.Write h (bytes_of (xof.h0 e)))) []) (xof.x e))
           0 (xof.left e).
Proof.
  unfold refill, blake2s.Size. destruct (xof.left e <? 32).
  - cbn. destruct (blake2s.New _) as [err|h]; [discriminate|].
    destruct (blake2s.Config.Tree (xof.oc e)) as [tr|]; [|discriminate].
    cbn. intros [= <-]. eauto.
  - destruct (blake2s.New _) as [err|h]; [discriminate|]. cbn.
    destruct (blake2s.Config.Tree (xof.oc e)) as [tr|]; [|discriminate].
    cbn. intros [= <-]. exists h, tr. split_and!; try reflexivity.
Qed.

(** What a refill that fails leaves behind. *)
Lemma refill_error_result (e e1 : engine) (err : error) :
  refill e = Some (e1, Some err) ->
  e1 = (if xof.left e <? 32
        then xof.set_oc (blake2s.Config.set_Size (uint8 (xof.left e)) (xof.oc e)) e
        else e).
Proof.
  unfold refill, blake2s.Size.
  destruct (blake2s.New _) as [err0|h]; [intros [= <- _]; reflexivity|].
  destruct (blake2s.Config.Tree _); discriminate.
Qed.

Context {L : blake2s.Lawful P}.

(** ** Counting bytes and blocks *)

(** One iteration keeps [left + 32 * offset + px]: a refill takes [px]
    from 32 to 0 and adds 1 to the node offset, and a byte handed out
    takes 1 from [left] and adds 1 to [px]. *)
Lemma emit_account (k : nat) : forall (e e' : engine) out err,
  xof_inv e -> emit k e = Some (e', out, err) ->
  xof.left e' + 32 * oc_offset e' + xof.px e' =
  xof.left e + 32 * oc_offset e + xof.px e.
Proof.
  induction k as [|k IH]; intros e e' out err I H.
  - injection H as <- _ _. reflexivity.
  - cbn [emit] in H. destruct (xof.left e =? 0) eqn:El.
    + injection H as <- _ _. reflexivity.
    + apply Z.eqb_neq in El.
      destruct (step_inv e I El) as (e1 & err1 & Hs & Hi). rewrite Hs in H.
      cbn [mbind option_bind] in H.
      assert (Hstep : xof.left e1 + 32 * oc_offset e1 + xof.px e1 =
                      xof.left e + 32 * oc_offset e + xof.px e).
      { pose proof (inv_px _ I) as Ipx. unfold blake2s.Size in *.
        destruct (Z.leb_spec 32 (xof.px e)) as [Hpx|Hpx].
        - destruct err1 as [err1|].
          + apply refill_error_result in Hs. subst e1.
            destruct (xof.left e <? 32); reflexivity.
          + apply refill_result in Hs. destruct Hs as (h & tr & _ & Htr & ->).
            destruct (inv_oc_Tree _ I) as (tr' & Htr' & Hoff & Hoff').
            assert (tr' = tr) by congruence. subst tr'.
            pose proof (inv_left _ I) as Il.
            unfold oc_offset. rewrite Htr. cbn.
            destruct (xof.left e <? 32); cbn; unfold uint64;
              rewrite uint_small by lia; lia.
        - injection Hs as <- <-. reflexivity. }
      destruct err1 as [err1|].
      * injection H as <- _ _. exact Hstep.
      * destruct Hi as (Ia & b & Hb). rewrite Hb in H. cbn [mbind option_bind] in H.
        destruct (emit k (advance e1)) as [[[e2 out2] err2]|] eqn:E;
          cbn [mbind option_bind] in H; [|discriminate].
        injection H as <- _ _. apply IH in E; [|exact Ia].
        rewrite E, <- Hstep. unfold oc_offset, advance. cbn. lia.
Qed.

Lemma emit_px_positive (k : nat) : forall (e e' : engine) out err,
  1 <= xof.px e -> emit k e = Some (e', out, err) -> 1 <= xof.px e'.
Proof.
  induction k as [|k IH]; intros e e' out err Hpx H.
  - injection H as <- _ _. exact Hpx.
  - cbn [emit] in H. destruct (xof.left e =? 0).
    + injection H as <- _ _. exact Hpx.
    + destruct (if blake2s.Size <=? xof.px e then refill e else Some (e, None))
        as [[e1 [err1|]]|] eqn:Es; cbn [mbind option_bind] in H; [| |discriminate].
      * injection H as <- _ _. destruct (blake2s.Size <=? xof.px e); [|discriminate].
        apply refill_frame in Es. destruct Es as (_ & _ & _ & _ & -> & _). exact Hpx.
      * destruct (buffer_at e1) as [b|]; cbn [mbind option_bind] in H; [|discriminate].
        destruct (emit k (advance e1)) as [[[e2 out2] err2]|] eqn:E;
          cbn [mbind option_bind] in H; [|discriminate].
        injection H as <- _ _. apply IH in E; [exact E|].
        cbn. destruct (blake2s.Size <=? xof.px e).
        -- apply refill_frame in Es. destruct Es as (_ & _ & _ & _ & ->). lia.
        -- injection Es as <-. lia.
Qed.

(** The count is kept by every call. *)
Lemma do_calls_account (cs : list call) : forall e e' : engine,
  xof_inv e -> 1 <= xof.px e -> do_calls e cs = Some e' ->
  xof.left e' + 32 * oc_offset e' + xof.px e' =
    xof.left e + 32 * oc_offset e + xof.px e /\
  1 <= xof.px e'.
Proof.
  induction cs as [|c cs IH]; intros e e' I Hpx H.
  - injection H as <-. split; [reflexivity|exact Hpx].
  - cbn [do_calls] in H. destruct (do_call_inv e c I) as (e1 & H1 & I1 & _).
    rewrite H1 in H. cbn [mbind option_bind] in H.
    assert (Hc : xof.left e1 + 32 * oc_offset e1 + xof.px e1 =
                 xof.left e + 32 * oc_offset e + xof.px e /\ 1 <= xof.px e1).
    { destruct c as [p|p]; cbn [do_call] in H1.
      - injection H1 as <-. unfold Write. destruct (xof.h0 e); [auto|].
        destruct (blake2s.Write (xof.rh e) p). auto.
      - rewrite Read_emit in H1.
        destruct (emit (length p) (finalize e)) as [[[e2 out] err]|] eqn:E; [|discriminate].
        injection H1 as <-. destruct (finalize_inv e I) as [If _].
        pose proof (emit_account _ _ _ _ _ If E) as Ha.
        pose proof (emit_px_positive _ (finalize e) _ _ _
                      ltac:(unfold finalize; destruct (xof.h0 e); exact Hpx) E) as Hp.
        split; [|exact Hp]. rewrite Ha. unfold finalize, oc_offset.
        destruct (xof.h0 e); reflexivity. }
    destruct Hc as [Hc Hp1]. destruct (IH e1 e' I1 Hp1 H) as [Ha Hp].
    split; [lia|exact Hp].
Qed.

(** X8. On every engine reached from [NewXOF] by calls, the node offset
    of the output config is the output length shifted left by 32 plus
    the number of blocks made so far; this number is the number of bytes
    handed out divided by 32 and rounded up, so that no block is made
    before a byte of it is asked for; and the output length is the node
    offset shifted right by 32. *)
Theorem node_offset_counts_blocks (σ σ' : store) (c : Config.t) (e0 : engine)
    (cs : list call) :
  Config.wf c ->
  NewXOF σ c = Some (σ', inr e0) ->
  exists e tr,
    do_calls e0 cs = Some e /\ blake2s.Config.Tree (xof.oc e) = Some tr /\
    let made := blake2s.Tree.NodeOffset tr - Z.shiftl (outSize_of c) 32 in
    let handed_out := outSize_of c - xof.left e in
    32 * made = handed_out + (32 - xof.px e) /\
    made = (handed_out + 31) / 32 /\
    Z.shiftr (blake2s.Tree.NodeOffset tr) 32 = outSize_of c.
Proof.
  intros Hc H. destruct (NewXOF_inv _ _ _ _ Hc H) as [I0 _].
  destruct (NewXOF_engine _ _ _ _ H) as (_ & rh & _ & _ & He0).
  destruct (do_calls_inv cs e0 I0) as (e & He & I & Hl & _).
  destruct (outSize_of_range c Hc) as [Hr _].
  destruct (encoded_length_small (outSize_of c) ltac:(lia)) as [Henc Hmul].
  assert (Hpx0 : 1 <= xof.px e0) by (rewrite He0; cbn; unfold blake2s.Size; lia).
  destruct (do_calls_account cs e0 e I0 Hpx0 He) as [Ha Hp].
  destruct (inv_oc_Tree _ I) as (tr & Htr & Hoff & _).
  pose proof (inv_px _ I) as Ipx. unfold blake2s.Size in Ipx.
  exists e, tr. split; [exact He|]. split; [exact Htr|].
  assert (Ha' : xof.left e + 32 * blake2s.Tree.NodeOffset tr + xof.px e =
                outSize_of c + 32 * Z.shiftl (outSize_of c) 32 + 32).
  { unfold oc_offset in Ha. rewrite Htr in Ha. rewrite Ha, He0. cbn.
    rewrite Henc. unfold blake2s.Size. reflexivity. }
  assert (Hl0 : xof.left e0 = outSize_of c) by (rewrite He0; reflexivity).
  cbv zeta. split_and!.
  - lia.
  - set (made := blake2s.Tree.NodeOffset tr - Z.shiftl (outSize_of c) 32) in *.
    set (out := outSize_of c - xof.left e) in *.
    assert (32 * made = out + (32 - xof.px e)) by (unfold made, out; lia).
    apply Z.div_unique with (r := xof.px e - 1); lia.
  - rewrite Z.shiftr_div_pow2 by lia. rewrite Hmul in *.
    symmetry. apply Z.div_unique with (r := blake2s.Tree.NodeOffset tr - outSize_of c * 2 ^ 32);
      [|lia].
    left. change (2 ^ 32) with 4294967296 in *. lia.
Qed.

(** ** The output config over time *)

(** X7. On every engine reached from [NewXOF] by calls, the output
    config is the one [NewXOF] made but for its digest size, which is
    between 1 and 32, and the node offset of its tree: the calls change
    nothing else in it. *)
Theorem output_config_changes_size_and_offset (σ σ' : store) (c : Config.t)
    (e0 : engine) (cs : list call) :
  Config.wf c ->
  NewXOF σ c = Some (σ', inr e0) ->
  exists e sz off,
    do_calls e0 cs = Some e /\
    xof.oc e =
      blake2s.Config.mk sz [] (Config.Salt c) (Config.Person c)
        (Some (blake2s.Tree.mk 0 0 32 off 0 32 false)) /\
    1 <= sz <= 32.
Proof.
  intros Hc H. destruct (NewXOF_inv _ _ _ _ Hc H) as [I0 _].
  destruct (NewXOF_engine _ _ _ _ H) as (_ & rh & _ & _ & He0).
  destruct (do_calls_inv cs e0 I0) as (e & He & I & _ & _ & HL).
  destruct (inv_oc_Tree _ I) as (tr & Htr & _).
  exists e, (blake2s.Config.Size (xof.oc e)), (blake2s.Tree.NodeOffset tr).
  split; [exact He|]. split; [|exact (inv_oc_Size _ I)].
  rewrite <- (leaf_config_self e tr Htr) at 1. rewrite HL, He0. reflexivity.
Qed.

(** ** The root digest *)

Lemma do_calls_finalized (cs : list call) : forall (e e' : engine) (d : list byte),
  xof_inv e -> xof.h0 e = Some d -> do_calls e cs = Some e' ->
  xof.h0 e' = Some d /\ xof.rh e' = xof.rh e.
Proof.
  induction cs as [|c cs IH]; intros e e' d I Hd H.
  - injection H as <-. auto.
  - cbn [do_calls] in H. destruct (do_call_inv e c I) as (e1 & H1 & I1 & _).
    rewrite H1 in H. cbn [mbind option_bind] in H.
    assert (H1' : xof.h0 e1 = Some d /\ xof.rh e1 = xof.rh e).
    { destruct c as [p|p]; cbn [do_call] in H1.
      - injection H1 as <-. unfold Write. rewrite Hd. auto.
      - destruct (Read_inv e p I) as (e2 & p' & nn & err & HR & _ & _ & _ & Hrh & Hh & _).
        rewrite HR in H1. injection H1 as <-. split; [|exact Hrh].
        rewrite Hh. f_equal. symmetry. apply (inv_h0 _ I), Hd. }
    destruct H1' as [Hd1 Hrh1]. destruct (IH e1 e' d I1 Hd1 H) as [? ?].
    split; [assumption|congruence].
Qed.

(** X6. The root digest is taken once: after the writes that precede
    the first [Read], whatever calls follow that [Read], the root digest
    of the engine is the digest of the root hash as those writes left it,
    and the root hash is still as they left it. *)
Theorem root_digest_taken_once (σ σ' : store) (c : Config.t) (e0 : engine)
    (ws : list (list byte)) (q : list byte) (cs : list call) :
  Config.wf c ->
  NewXOF σ c = Some (σ', inr e0) ->
  exists e e',
    do_calls e0 (CallWrite <$> ws) = Some e /\
    do_calls e0 ((CallWrite <$> ws) ++ CallRead q :: cs) = Some e' /\
    xof.h0 e = None /\
    xof.h0 e' = Some (blake2s.Sum (xof.rh e) []) /\
    xof.rh e' = xof.rh e.
Proof.
  intros Hc H. destruct (NewXOF_inv _ _ _ _ Hc H) as [I0 Hh0].
  destruct (do_calls_inv (CallWrite <$> ws) e0 I0) as (e & He & I & _).
  assert (Hnone : xof.h0 e = None).
  { clear -He Hh0. revert e0 He Hh0. induction ws as [|w ws IH]; intros e0 He Hh0.
    - injection He as <-. exact Hh0.
    - cbn in He. apply IH in He; [exact He|]. unfold Write. rewrite Hh0.
      destruct (blake2s.Write (xof.rh e0) w). exact Hh0. }
  destruct (Read_inv e q I) as (e1 & q' & nn & err & HR & I1 & _ & _ & Hrh & Hh & _).
  destruct (do_calls_inv cs e1 I1) as (e' & He' & _).
  destruct (do_calls_finalized cs e1 e' _ I1 Hh He') as [Hd Hr].
  exists e, e'. rewrite do_calls_app, He. cbn [mbind option_bind do_calls do_call].
  rewrite HR. cbn [mbind option_bind fst]. split_and!; try assumption; try reflexivity.
  congruence.
Qed.

(** ** Counting bytes *)

Lemma Reads_account (ps : list (list byte)) : forall e : engine,
  xof_inv e ->
  exists e' rs,
    Reads e ps = Some (e', rs) /\ xof_inv e' /\
    Z.of_nat (length (bytes_read rs)) = xof.left e - xof.left e' /\
    Forall2 (fun p r => (length (fst r) <= length p)%nat) ps rs.
Proof.
  induction ps as [|p ps IH]; intros e I.
  - exists e, []. cbn. split_and!; auto. lia.
  - destruct (Read_inv e p I) as (e1 & p' & nn & err & HR & I1 & Hnn & Hl & _).
    destruct (IH e1 I1) as (e' & rs & HRs & I' & Hlen & HF).
    pose proof (Read_buffer_frame _ _ _ _ _ _ HR) as (_ & Hp' & _).
    cbn [Reads]. rewrite HR. cbn [mbind option_bind fst]. rewrite HRs.
    cbn [mbind option_bind]. eexists _, _. split; [reflexivity|].
    assert (Hret : Z.of_nat (length (take (Z.to_nat nn) p')) = nn).
    { rewrite length_take. lia. }
    split_and!; [exact I'| |].
    + unfold bytes_read in *. cbn [map concat fst returned]. rewrite length_app. lia.
    + constructor; [|exact HF]. cbn [fst returned]. lia.
Qed.

(** X5. Over any sequence of [Read] calls on an engine made by [NewXOF]
    and written to, each call hands back at most as many bytes as its
    buffer holds, and the bytes handed back in total are as many as
    [left] has gone down from the output length: never more than the
    output length. *)
Theorem Reads_never_exceed_length (σ σ' : store) (c : Config.t) (e0 : engine)
    (ws ps : list (list byte)) :
  Config.wf c ->
  NewXOF σ c = Some (σ', inr e0) ->
  exists e e' rs,
    do_calls e0 (CallWrite <$> ws) = Some e /\
    Reads e ps = Some (e', rs) /\
    Forall2 (fun p r => (length (fst r) <= length p)%nat) ps rs /\
    Z.of_nat (length (bytes_read rs)) = outSize_of c - xof.left e' /\
    0 <= xof.left e' /\
    Z.of_nat (length (bytes_read rs)) <= outSize_of c.
Proof.
  intros Hc H. destruct (NewXOF_inv _ _ _ _ Hc H) as [I0 _].
  destruct (NewXOF_engine _ _ _ _ H) as (_ & rh & _ & _ & He0).
  destruct (do_calls_inv (CallWrite <$> ws) e0 I0) as (e & He & I & _).
  assert (Hleft : xof.left e = outSize_of c).
  { assert (Hl0 : xof.left e0 = outSize_of c) by (rewrite He0; reflexivity).
    rewrite <- Hl0. clear -He. revert e0 He. induction ws as [|w ws IH]; intros e0 He.
    - injection He as <-. reflexivity.
    - cbn in He. apply IH in He. rewrite He. unfold Write.
      destruct (xof.h0 e0); [reflexivity|].
      destruct (blake2s.Write (xof.rh e0) w). reflexivity. }
  destruct (Reads_account ps e I) as (e' & rs & HRs & I' & Hlen & HF).
  pose proof (inv_left _ I'). exists e, e', rs.
  split_and!; try assumption; lia.
Qed.

(** ** The output as a sequence of blocks *)

Lemma blocks_fuel (n : nat) : forall (m : nat) (e : engine) d left off,
  left <= Z.of_nat n -> left <= Z.of_nat m ->
  blocks n e d left off = blocks m e d left off.
Proof.
  induction n as [|n IH]; intros m e d left off Hn Hm.
  - destruct m as [|m]; [reflexivity|]. cbn [blocks].
    destruct (Z.leb_spec left 0); [reflexivity|lia].
  - destruct m as [|m]; cbn [blocks].
    + destruct (Z.leb_spec left 0); [reflexivity|lia].
    + destruct (Z.leb_spec left 0); [reflexivity|].
      f_equal. apply IH; lia.
Qed.

Lemma blocks_ext (n : nat) : forall (e e' : engine) d left off,
  (forall sz o, leaf_config e' sz o = leaf_config e sz o) ->
  blocks n e' d left off = blocks n e d left off.
Proof.
  induction n as [|n IH]; intros e e' d left off H; cbn [blocks]; [reflexivity|].
  destruct (left <=? 0); [reflexivity|].
  unfold leaf_block. rewrite H. f_equal. apply IH, H.
Qed.

Lemma leaf_block_length (e : engine) d sz off :
  accepts_leaves e -> 1 <= sz <= 32 -> 0 <= off < 2 ^ 48 ->
  Z.of_nat (length (leaf_block e d sz off)) = sz.
Proof.
  intros A Hsz Hoff. unfold leaf_block.
  destruct (A sz off Hsz Hoff) as [h Hh]. rewrite Hh.
  assert (Hs : blake2s.HashSize h = sz).
  { rewrite (blake2s.New_HashSize _ _ Hh); unfold leaf_config; cbn; [reflexivity|].
    exact Hsz. }
  rewrite blake2s.Sum_length; rewrite blake2s.Write_HashSize, Hs;
    unfold blake2s.Size; [reflexivity|lia].
Qed.

(** The blocks for [left] bytes are [left] bytes. *)
Lemma blocks_length (n : nat) : forall (e : engine) d left off,
  accepts_leaves e -> 0 <= left <= Z.of_nat n -> 0 <= off -> off + left < 2 ^ 48 ->
  Z.of_nat (length (blocks n e d left off)) = left.
Proof.
  induction n as [|n IH]; intros e d left off A Hl Ho Hb; cbn [blocks].
  - cbn. lia.
  - destruct (Z.leb_spec left 0); [cbn; lia|].
    rewrite length_app, Nat2Z.inj_add, leaf_block_length by (assumption || lia).
    rewrite IH by (assumption || lia). lia.
Qed.

Lemma pending_length (e : engine) :
  xof_inv e ->
  length (pending e) = Z.to_nat (Z.min (32 - xof.px e) (xof.left e)).
Proof.
  intros I. pose proof (inv_px _ I) as Hpx. pose proof (inv_x _ I) as Hx.
  unfold blake2s.Size in Hpx. unfold pending.
  rewrite length_take, length_drop, Hx. lia.
Qed.

(** From any state the loop hands out what is pending in the buffer
    and then the blocks for the rest. *)
Lemma emit_stream (k : nat) : forall (e : engine) (d : list byte),
  xof_inv e -> full_size e -> accepts_leaves e -> xof.h0 e = Some d ->
  exists e' err,
    emit k e =
      Some (e',
            take k (pending e
                    ++ blocks (Z.to_nat (xof.left e)) e d
                         (xof.left e - Z.of_nat (length (pending e))) (oc_offset e)),
            err).
Proof.
  induction k as [|k IH]; intros e d I F A Hd; [cbn; eauto|].
  pose proof (inv_px _ I) as Hpx. pose proof (inv_left _ I) as Hl.
  pose proof (inv_x _ I) as Hx. unfold blake2s.Size in Hpx.
  pose proof (pending_length e I) as Hpl.
  cbn [emit]. destruct (Z.eqb_spec (xof.left e) 0) as [El|El].
  - exists e, (Some io_EOF). do 3 f_equal.
    destruct (pending e); [|cbn in Hpl; lia].
    rewrite El. cbn. reflexivity.
  - destruct (step_ok e I A El) as (e1 & b & Hs & Hb & I1 & A1).
    rewrite Hs. cbn [mbind option_bind]. rewrite Hb. cbn [mbind option_bind].
    assert (Hd1 : xof.h0 (advance e1) = Some d).
    { apply step_frame in Hs. destruct Hs as (_ & Hh & _). cbn. congruence. }
    assert (HL1 : forall sz o, leaf_config (advance e1) sz o = leaf_config e sz o).
    { apply step_frame in Hs. destruct Hs as (_ & _ & _ & HL). intros. rewrite <- HL. reflexivity. }
    assert (Hl1 : xof.left (advance e1) = xof.left e - 1).
    { apply step_frame in Hs. destruct Hs as (_ & _ & Hl1 & _). cbn. lia. }
    assert (F1 : full_size (advance e1)).
    { unfold full_size. rewrite Hl1. intros H32.
      specialize (F ltac:(lia)). unfold blake2s.Size in Hs.
      destruct (Z.leb_spec 32 (xof.px e)).
      - apply refill_result in Hs. destruct Hs as (h & tr & _ & _ & ->). cbn.
        destruct (Z.ltb_spec (xof.left e) 32); [lia|]. exact F.
      - injection Hs as <-. exact F. }
    destruct (IH (advance e1) d I1 F1 A1 Hd1) as (e' & err & ->).
    cbn [mbind option_bind]. exists e', err. do 3 f_equal.
    pose proof (pending_length _ I1) as Hpl1. rewrite Hl1 in Hpl1.
    rewrite Hl1, (blocks_ext _ e (advance e1)) by exact HL1.
    unfold blake2s.Size in Hs.
    destruct (Z.leb_spec 32 (xof.px e)) as [Hp|Hp].
    + (* a new block *)
      assert (Hpx32 : xof.px e = 32) by lia.
      apply refill_result in Hs. destruct Hs as (h & tr & HN & Htr & He1).
      destruct (inv_oc_Tree _ I) as (tr' & Htr' & Hoff & Hoff').
      assert (tr' = tr) by congruence. subst tr'.
      set (sz := Z.min 32 (xof.left e)).
      assert (Hoc1 : (if xof.left e <? 32
                      then blake2s.Config.set_Size (uint8 (xof.left e)) (xof.oc e)
                      else xof.oc e) = leaf_config e sz (blake2s.Tree.NodeOffset tr)).
      { subst sz. destruct (Z.ltb_spec (xof.left e) 32).
        - rewrite Z.min_r by lia. unfold uint8. rewrite uint_small by lia.
          unfold leaf_config. rewrite Htr. destruct (xof.oc e) as [? ? ? ? t].
          cbn in Htr. subst t. destruct tr. reflexivity.
        - rewrite Z.min_l by lia. rewrite <- (F ltac:(lia)).
          symmetry. apply leaf_config_self, Htr. }
      rewrite Hoc1 in HN, He1.
      set (B := blake2s.Sum (fst (blake2s.Write h (bytes_of (xof.h0 e)))) []) in *.
      assert (HB : leaf_block e d sz (blake2s.Tree.NodeOffset tr) = B).
      { unfold leaf_block. rewrite HN. subst B. rewrite Hd. reflexivity. }
      assert (HBl : Z.of_nat (length B) = sz).
      { rewrite <- HB. apply leaf_block_length; [exact A|subst sz; lia|lia]. }
      assert (Hsum : sum_into B (xof.x e) = B ++ drop (length B) (xof.x e)).
      { unfold sum_into. destruct (Nat.leb_spec (length B) (length (xof.x e))); [reflexivity|].
        subst sz. lia. }
      rewrite Hsum in He1.
      assert (Hpe : pending e = []).
      { destruct (pending e); [reflexivity|]. cbn in Hpl. lia. }
      rewrite Hpe. cbn [length app]. rewrite Z.sub_0_r.
      assert (Hoff1 : oc_offset (advance e1) = blake2s.Tree.NodeOffset tr + 1).
      { rewrite He1. unfold oc_offset. cbn. unfold uint64. apply uint_small. lia. }
      assert (Hoff0 : oc_offset e = blake2s.Tree.NodeOffset tr).
      { unfold oc_offset. rewrite Htr. reflexivity. }
      rewrite Hoff1, Hoff0.
      destruct (Z.to_nat (xof.left e)) as [|n] eqn:En; [lia|].
      cbn [blocks]. destruct (Z.leb_spec (xof.left e) 0); [lia|].
      fold sz. rewrite HB.
      assert (Hb0 : B !! 0%nat = Some b).
      { unfold buffer_at in Hb. rewrite He1 in Hb. cbn in Hb.
        rewrite lookup_app_l in Hb by (subst sz; lia). exact Hb. }
      assert (Hpa : pending (advance e1) = drop 1 B).
      { unfold pending. rewrite He1. cbn.
        change (Z.to_nat (0 + 1)) with 1%nat.
        rewrite drop_app_le by (subst sz; lia).
        rewrite take_app_length'; [reflexivity|].
        rewrite length_drop. subst sz. lia. }
      rewrite Hpa, length_drop.
      destruct B as [|b0 B']; [discriminate|]. injection Hb0 as ->.
      cbn [drop length app take]. f_equal.
      rewrite drop_0. do 2 f_equal.
      replace (xof.left e - 1 - Z.of_nat (S (length B') - 1)) with (xof.left e - sz)
        by (cbn [length] in HBl; lia).
      apply blocks_fuel; subst sz; lia.
    + (* from the buffer *)
      injection Hs as <-.
      assert (Hbx : xof.x e !! Z.to_nat (xof.px e) = Some b).
      { unfold buffer_at in Hb. destruct (xof.px e <? 0); [discriminate|exact Hb]. }
      assert (Hpe : pending e = b :: pending (advance e)).
      { unfold pending. cbn.
        replace (Z.to_nat (Z.min (32 - xof.px e) (xof.left e)))
          with (S (Z.to_nat (Z.min (32 - (xof.px e + 1)) (xof.left e - 1)))) by lia.
        rewrite (drop_S _ b _ Hbx). cbn [take].
        replace (Z.to_nat (xof.px e + 1)) with (S (Z.to_nat (xof.px e))) by lia.
        reflexivity. }
      rewrite Hpe. cbn [app take length]. f_equal. do 2 f_equal.
      change (oc_offset (advance e)) with (oc_offset e).
      replace (xof.left e - 1 - Z.of_nat (length (pending (advance e))))
        with (xof.left e - Z.of_nat (S (length (pending (advance e))))) by lia.
      apply blocks_fuel; lia.
Qed.

(** Writes before the first [Read] change the root hash only. *)
Lemma writes_frame (ws : list (list byte)) : forall e e' : engine,
  xof.h0 e = None -> do_calls e (CallWrite <$> ws) = Some e' ->
  xof.h0 e' = None /\ xof.oc e' = xof.oc e /\ xof.x e' = xof.x e /\
  xof.px e' = xof.px e /\ xof.left e' = xof.left e.
Proof.
  induction ws as [|w ws IH]; intros e e' Hh H.
  - injection H as <-. auto.
  - cbn in H. apply IH in H.
    + unfold Write in H. rewrite Hh in H.
      destruct (blake2s.Write (xof.rh e) w). exact H.
    + unfold Write. rewrite Hh. destruct (blake2s.Write (xof.rh e) w). exact Hh.
Qed.

(** The blocks, one by one. *)
Lemma blocks_concat (n : nat) : forall (e : engine) d left off,
  0 <= left <= Z.of_nat n ->
  blocks n e d left off =
    concat (map (fun j : nat =>
                   leaf_block e d (Z.min 32 (left - 32 * Z.of_nat j)) (off + Z.of_nat j))
                (seq 0 (Z.to_nat ((left + 31) / 32)))).
Proof.
  induction n as [|n IH]; intros e d left off Hl.
  - assert (left = 0) by lia. subst left. reflexivity.
  - cbn [blocks]. destruct (Z.leb_spec left 0).
    + assert (left = 0) by lia. subst left. reflexivity.
    + assert (Hc : Z.to_nat ((left + 31) / 32)
                   = S (Z.to_nat ((left - Z.min 32 left + 31) / 32))).
      { destruct (Z.le_gt_cases 32 left).
        - rewrite Z.min_l by lia.
          replace (left + 31) with ((left - 32 + 31) + 1 * 32) by lia.
          rewrite Z.div_add by lia.
          assert (0 <= (left - 32 + 31) / 32) by (apply Z.div_pos; lia). lia.
        - rewrite Z.min_r by lia. replace (left - left + 31) with 31 by lia.
          rewrite (Z.div_small 31 32) by lia.
          replace (left + 31) with ((left - 1) + 1 * 32) by lia.
          rewrite Z.div_add by lia. rewrite (Z.div_small (left - 1) 32) by lia.
          reflexivity. }
      rewrite Hc. cbn [seq map concat]. rewrite Z.mul_0_r, Z.sub_0_r, Z.add_0_r.
      f_equal. rewrite IH by lia.
      destruct (Z.le_gt_cases 32 left).
      * f_equal. rewrite <- seq_shift, map_map.
        apply map_ext. intros j. f_equal; [|lia].
        rewrite (Z.min_l 32 left) by lia. f_equal. lia.
      * rewrite (Z.min_r 32 left) by lia. replace (left - left + 31) with 31 by lia.
        rewrite (Z.div_small 31 32) by lia. reflexivity.
Qed.

(** X9. What is read from an engine made by [NewXOF] and written to is
    the start of the sequence of blocks of the construction: with [d] the
    digest of the root hash after the writes and [L] the output length,
    block [j] is the digest of a hash made from the output config with
    node offset [L << 32 + j] and digest size 32, or what is left of [L]
    for the last block, into which [d] was written. The blocks together
    are [L] bytes, and a [Read] into [p] hands back the first [len(p)]
    bytes of them. This holds while the primitive makes the hashes of the
    output blocks. *)
Theorem Read_returns_blocks (σ σ' : store) (c : Config.t) (e0 : engine)
    (ws : list (list byte)) (p : list byte) :
  Config.wf c ->
  NewXOF σ c = Some (σ', inr e0) ->
  accepts_leaves e0 ->
  exists e e' p' nn err,
    do_calls e0 (CallWrite <$> ws) = Some e /\
    Read e p = Some (e', p', nn, err) /\
    let d := blake2s.Sum (xof.rh e) [] in
    let L := outSize_of c in
    let block (j : nat) :=
      leaf_block e0 d (Z.min 32 (L - 32 * Z.of_nat j)) (Z.shiftl L 32 + Z.of_nat j) in
    let stream := concat (map block (seq 0 (Z.to_nat ((L + 31) / 32)))) in
    Z.of_nat (length stream) = L /\
    take (Z.to_nat nn) p' = take (length p) stream.
Proof.
  intros Hc H A0. destruct (NewXOF_inv _ _ _ _ Hc H) as [I0 Hh0].
  destruct (NewXOF_engine _ _ _ _ H) as (_ & rh & _ & _ & He0).
  destruct (do_calls_inv (CallWrite <$> ws) e0 I0) as (e & He & I & _ & _ & HL).
  destruct (writes_frame ws e0 e Hh0 He) as (Hh & Hoc & Hx & Hpx & Hl).
  destruct (outSize_of_range c Hc) as [Hr _].
  destruct (encoded_length_small (outSize_of c) ltac:(lia)) as [Henc Hmul].
  assert (Hl0 : xof.left e0 = outSize_of c) by (rewrite He0; reflexivity).
  assert (Hpx0 : xof.px e0 = 32) by (rewrite He0; reflexivity).
  assert (Hoff0 : oc_offset e0 = Z.shiftl (outSize_of c) 32).
  { rewrite He0. unfold oc_offset. cbn. exact Henc. }
  destruct (finalize_inv e I) as [If Hd]. destruct (finalize_frame e) as [Hlf HLf].
  assert (Ff : full_size (finalize e)).
  { intros _. unfold finalize. rewrite Hh. cbn. rewrite Hoc, He0. reflexivity. }
  assert (Af : accepts_leaves (finalize e)).
  { eapply accepts_frame; [|exact A0]. intros. rewrite HLf. apply HL. }
  destruct (emit_stream (length p) (finalize e) _ If Ff Af Hd) as (e' & err & E).
  assert (Hpe : pending (finalize e) = []).
  { pose proof (pending_length _ If) as Hp. unfold finalize in Hp at 2 3.
    rewrite Hh in Hp. cbn in Hp. rewrite Hpx, Hpx0 in Hp.
    destruct (pending (finalize e)); [reflexivity|]. cbn in Hp. lia. }
  rewrite Hpe in E. cbn [app length] in E. rewrite Z.sub_0_r in E.
  assert (Hofff : oc_offset (finalize e) = Z.shiftl (outSize_of c) 32).
  { unfold finalize, oc_offset. rewrite Hh. cbn. rewrite Hoc. exact Hoff0. }
  rewrite Hlf, Hl, Hl0, Hofff in E.
  rewrite (blocks_ext _ e0 (finalize e)) in E by (intros; rewrite HLf; apply HL).
  rewrite blocks_concat in E by lia.
  eexists e, e', _, _, err. split; [exact He|].
  split; [rewrite Read_emit, E; reflexivity|].
  cbv zeta. split.
  - rewrite <- (blocks_concat (Z.to_nat (outSize_of c))) by lia.
    apply blocks_length; [exact A0|lia|lia|].
    rewrite Hmul. change (2 ^ 48) with (65536 * 2 ^ 32). nia.
  - rewrite Nat2Z.id, take_app_length. reflexivity.
Qed.
End Further.

(** ** The further properties on sample inputs *)

Lemma NewXOF_store_effect_witness :
  exists σ' r,
    NewXOF Sample.store_tree Sample.cfg64_tree = Some (σ', r) /\
    dom σ' = dom Sample.store_tree /\
    (blake2s.Tree.NodeOffset <$> σ' !! 1%positive) = Some (Z.shiftl 64 32).
Proof.
  pose proof (NewXOF_store Sample.store_tree Sample.cfg64_tree) as H.
  destruct (H Sample.tree eq_refl) as [r Hr].
  match type of Hr with _ = Some (?s, _) => set (σ' := s) in * end.
  destruct (NewXOF_store_effect _ _ _ _ Hr) as (_ & _ & Hl & Hdom).
  destruct (Hl 1%positive eq_refl) as (tr & Htr & Hl').
  exists σ', r. split; [exact Hr|]. split; [exact Hdom|].
  injection Htr as <-.
  exact (f_equal (fun o => blake2s.Tree.NodeOffset <$> o) Hl').
Defined.

Lemma NewXOF_depends_on_parameters_witness :
  snd <$> NewXOF ∅ Sample.cfg0 = snd <$> NewXOF ∅ (Config.mk 65535 [] [] [] None).
Proof.
  apply NewXOF_depends_on_parameters; reflexivity.
Defined.

Lemma eng64_inv : xof_inv Sample.eng64.
Proof. exact (proj1 (NewXOF_inv _ _ _ _ cfg64_wf NewXOF_cfg64)). Qed.

Lemma Read_buffer_frame_witness :
  exists e' p' nn err,
    Read Sample.eng64 (Sample.buffer 3) = Some (e', p', nn, err) /\
    length p' = 3%nat /\
    forall q, length q = 3%nat ->
      Read Sample.eng64 q = Some (e', take (Z.to_nat nn) p' ++ drop (Z.to_nat nn) q, nn, err).
Proof.
  destruct (Read_inv Sample.eng64 (Sample.buffer 3) eng64_inv)
    as (e' & p' & nn & err & HR & _).
  destruct (Read_buffer_frame _ _ _ _ _ _ HR) as (_ & Hlen & _ & Hq).
  exists e', p', nn, err. split; [exact HR|]. split; [exact Hlen|exact Hq].
Defined.

Lemma Read_error_repeats_witness :
  exists e' p' nn,
    Read Sample.eng64 (Sample.buffer 65) = Some (e', p', nn, Some io_EOF) /\
    Read e' (Sample.buffer 1) = Some (e', Sample.buffer 1, 0, Some io_EOF) /\
    Read e' [] = Some (e', [], 0, None).
Proof.
  destruct (Read_ok Sample.eng64 (Sample.buffer 65) eng64_inv
              (BLAKE2s_accepts_leaves _ _ _ _ NewXOF_cfg64))
    as (e' & p' & nn & HR & _).
  change (Read Sample.eng64 (Sample.buffer 65) = Some (e', p', nn, Some io_EOF)) in HR.
  destruct (Read_error_repeats _ _ _ _ _ _ HR) as [Hq Hnil].
  exists e', p', nn. split; [exact HR|]. split; [|exact Hnil].
  apply Hq. discriminate.
Defined.

Lemma Reads_never_exceed_length_witness :
  exists e e' rs,
    do_calls Sample.eng64 (CallWrite <$> [Sample.abc]) = Some e /\
    Reads e [Sample.buffer 40; Sample.buffer 40] = Some (e', rs) /\
    Z.of_nat (length (bytes_read rs)) <= 64.
Proof.
  destruct (Reads_never_exceed_length ∅ ∅ Sample.cfg64 Sample.eng64 [Sample.abc]
              [Sample.buffer 40; Sample.buffer 40] cfg64_wf NewXOF_cfg64)
    as (e & e' & rs & He & HR & _ & _ & _ & Hle).
  exists e, e', rs. split; [exact He|]. split; [exact HR|exact Hle].
Defined.

Lemma root_digest_taken_once_witness :
  exists e e',
    do_calls Sample.eng64 (CallWrite <$> [Sample.abc]) = Some e /\
    do_calls Sample.eng64
      ((CallWrite <$> [Sample.abc]) ++ CallRead (Sample.buffer 4) :: [CallWrite Sample.abc])
      = Some e' /\
    xof.h0 e' = Some (blake2s.Sum (xof.rh e) []) /\ xof.rh e' = xof.rh e.
Proof.
  destruct (root_digest_taken_once ∅ ∅ Sample.cfg64 Sample.eng64 [Sample.abc]
              (Sample.buffer 4) [CallWrite Sample.abc] cfg64_wf NewXOF_cfg64)
    as (e & e' & He & He' & _ & Hh & Hr).
  exists e, e'. split; [exact He|]. split; [exact He'|]. split; [exact Hh|exact Hr].
Defined.

Lemma output_config_changes_size_and_offset_witness :
  exists e sz off,
    do_calls Sample.eng64 [CallRead (Sample.buffer 40)] = Some e /\
    xof.oc e =
      blake2s.Config.mk sz [] [] [] (Some (blake2s.Tree.mk 0 0 32 off 0 32 false)) /\
    1 <= sz <= 32.
Proof.
  exact (output_config_changes_size_and_offset ∅ ∅ Sample.cfg64 Sample.eng64
           [CallRead (Sample.buffer 40)] cfg64_wf NewXOF_cfg64).
Defined.

Lemma node_offset_counts_blocks_witness :
  exists e tr,
    do_calls Sample.eng64 [CallRead (Sample.buffer 40)] = Some e /\
    blake2s.Config.Tree (xof.oc e) = Some tr /\
    blake2s.Tree.NodeOffset tr - Z.shiftl 64 32 = (64 - xof.left e + 31) / 32 /\
    Z.shiftr (blake2s.Tree.NodeOffset tr) 32 = 64.
Proof.
  destruct (node_offset_counts_blocks ∅ ∅ Sample.cfg64 Sample.eng64
              [CallRead (Sample.buffer 40)] cfg64_wf NewXOF_cfg64)
    as (e & tr & He & Htr & _ & Hm & Hs).
  exists e, tr. split; [exact He|]. split; [exact Htr|]. split; [exact Hm|exact Hs].
Defined.

Lemma Read_returns_blocks_witness :
  exists e e' p' nn err,
    do_calls Sample.eng64 (CallWrite <$> [Sample.abc]) = Some e /\
    Read e (Sample.buffer 40) = Some (e', p', nn, err) /\
    take (Z.to_nat nn) p' =
      take 40
        (leaf_block Sample.eng64 (blake2s.Sum (xof.rh e) []) 32 (Z.shiftl 64 32)
         ++ leaf_block Sample.eng64 (blake2s.Sum (xof.rh e) []) 32 (Z.shiftl 64 32 + 1)).
Proof.
  destruct (Read_returns_blocks ∅ ∅ Sample.cfg64 Sample.eng64 [Sample.abc]
              (Sample.buffer 40) cfg64_wf NewXOF_cfg64
              (BLAKE2s_accepts_leaves _ _ _ _ NewXOF_cfg64))
    as (e & e' & p' & nn & err & He & HR & _ & Ht).
  exists e, e', p', nn, err. split; [exact He|]. split; [exact HR|].
  rewrite Ht.
  change (Z.to_nat ((outSize_of Sample.cfg64 + 31) / 32)) with 2%nat.
  cbn [seq map concat]. rewrite app_nil_r. reflexivity.
Defined.
